(** * Brand scanner: a shallow embedding of brand-scanner-app.py

    The first half holds the definitions: Python's strings and the built-ins
    the program relies on ([Py]), the matcher, the exceptions, the parsed
    documents and the outside world, then the URL filter, the fetcher, the
    sitemap resolver, the crawler and the text extractor, and last the
    notions the properties are stated with and a few small worlds to run the
    program in. The second half holds the properties, component by
    component.

    Conventions.
    - A Python [str] is a [str]: a list of Unicode code points, each a
      number. A literal is read as UTF-8, so that ["İ"] is the one code point
      304.
    - [str.isspace], the class [\s] of [re] and the characters [str.strip]
      removes are one set of 29 code points, written out in [Py.isspace].
    - [str.lower] depends on the case tables of Unicode, which are no part
      of the program: it is a parameter ([Py.Unicode]) of which only two
      facts are used. It does not keep the length of a string: the lowercase
      form of U+0130 has two code points.
    - A Python [int] is a [Z]; [-1] is what [str.find] answers when there is
      no occurrence.
    - A [set] of strings is a [gset str], a [dict] from strings is a
      [gmap str _].
    - A [while] loop is a fuelled function: [None] means that the fuel ran
      out before the loop left, never a result of the program.
    - The depth of a recursion is bounded by the interpreter: a call
      deeper than its limit raises [RecursionError]. *)

From Stdlib Require Import ZArith NArith Lia List Floats.
From Stdlib.Strings Require Import Byte.
From stdpp Require Import gmap list relations.

Local Open Scope Z_scope.

#[local] Set Warnings "-register-all,-clear-no-such-hyp".
#[local] Set Warnings "-via-type-remapping,-via-type-mismatch".

(** ** Strings *)

(** A character is a code point. *)
Definition char := N.
Definition str := list char.

(** *** String literals, read as UTF-8 *)

Module Literal.

Inductive literal := LNil | LCons (c : N) (l : literal).

Fixpoint utf8_decode (fuel : nat) (bs : list byte) : literal :=
  match fuel with
  | O => LNil
  | S fuel' =>
      match bs with
      | [] => LNil
      | b :: bs1 =>
          let n := Byte.to_N b in
          if (n <? 128)%N then LCons n (utf8_decode fuel' bs1)
          else if (n <? 224)%N then
            match bs1 with
            | b1 :: bs2 =>
                LCons ((n - 192) * 64 + (Byte.to_N b1 - 128))%N
                  (utf8_decode fuel' bs2)
            | _ => LCons n LNil
            end
          else if (n <? 240)%N then
            match bs1 with
            | b1 :: b2 :: bs3 =>
                LCons ((n - 224) * 4096 + (Byte.to_N b1 - 128) * 64
                       + (Byte.to_N b2 - 128))%N
                  (utf8_decode fuel' bs3)
            | _ => LCons n LNil
            end
          else
            match bs1 with
            | b1 :: b2 :: b3 :: bs4 =>
                LCons ((n - 240) * 262144 + (Byte.to_N b1 - 128) * 4096
                       + (Byte.to_N b2 - 128) * 64 + (Byte.to_N b3 - 128))%N
                  (utf8_decode fuel' bs4)
            | _ => LCons n LNil
            end
      end
  end.

Definition of_bytes (bs : list byte) : literal := utf8_decode (length bs) bs.

Definition byte_of (n : N) : byte :=
  match Byte.of_N n with
  | Some b => b
  | None => x00
  end.

Definition utf8_encode (c : N) : list byte :=
  if (c <? 128)%N then [byte_of c]
  else if (c <? 2048)%N then
    [byte_of (192 + c / 64); byte_of (128 + c mod 64)]
  else if (c <? 65536)%N then
    [byte_of (224 + c / 4096); byte_of (128 + (c / 64) mod 64);
     byte_of (128 + c mod 64)]
  else
    [byte_of (240 + c / 262144); byte_of (128 + (c / 4096) mod 64);
     byte_of (128 + (c / 64) mod 64); byte_of (128 + c mod 64)].

Fixpoint to_bytes (l : literal) : list byte :=
  match l with
  | LNil => []
  | LCons c l' => utf8_encode c ++ to_bytes l'
  end.

Definition snil : str := [].
Definition scons (c : char) (s : str) : str := c :: s.

End Literal.

Declare Scope str_scope.
Delimit Scope str_scope with str.
Bind Scope str_scope with str.
String Notation str Literal.of_bytes Literal.to_bytes
  (via Literal.literal
   mapping [Literal.snil => Literal.LNil, Literal.scons => Literal.LCons])
  : str_scope.
Local Open Scope str_scope.

(** ** Python built-ins on strings *)

Module Py.

Definition len (s : str) : Z := Z.of_nat (length s).

(** [str.isspace] on one character, which is also the class [\s] of [re] on
    a [str] pattern and what [str.strip] removes: tab to carriage return,
    the separators 28 to 31, the space, U+0085, U+00A0, U+1680, U+2000 to
    U+200A, U+2028, U+2029, U+202F, U+205F and U+3000. *)
Definition isspace (c : char) : bool :=
  (((9 <=? c) && (c <=? 13)) || ((28 <=? c) && (c <=? 32))
   || (c =? 133) || (c =? 160) || (c =? 5760)
   || ((8192 <=? c) && (c <=? 8202))
   || (c =? 8232) || (c =? 8233) || (c =? 8239) || (c =? 8287)
   || (c =? 12288))%N.

Fixpoint lstrip (s : str) : str :=
  match s with
  | [] => []
  | c :: s' => if isspace c then lstrip s' else s
  end.

Fixpoint rstrip (s : str) : str :=
  match s with
  | [] => []
  | c :: s' =>
      match rstrip s' with
      | [] => if isspace c then [] else [c]
      | r => c :: r
      end
  end.

Definition strip (s : str) : str := rstrip (lstrip s).

(** The [m] characters of [s] from index [n] on, fewer where [s] ends. *)
Definition substring (n m : nat) (s : str) : str := take m (drop n s).

(** An index of a slice or of [find]: a negative one counts from the end,
    and the result is clamped to the string. *)
Definition clamp_index (n i : Z) : Z :=
  if i <? 0 then Z.max 0 (i + n) else Z.min i n.

(** [s[a:b]] *)
Definition slice (s : str) (a b : Z) : str :=
  let a' := clamp_index (len s) a in
  let b' := clamp_index (len s) b in
  substring (Z.to_nat a') (Z.to_nat (b' - a')) s.

(** [s] starts with [p]. *)
Fixpoint is_prefix (p s : str) : bool :=
  match p, s with
  | [], _ => true
  | _ :: _, [] => false
  | c :: p', d :: s' => (c =? d)%N && is_prefix p' s'
  end.

(** The lowest index at which [sub] stands in [s]. *)
Fixpoint index_of (sub s : str) : option nat :=
  if is_prefix sub s then Some 0%nat
  else
    match s with
    | [] => None
    | _ :: s' =>
        match index_of sub s' with
        | Some i => Some (S i)
        | None => None
        end
    end.

(** [s.find(sub, start)]: the lowest index at or after [start] where [sub]
    occurs, [-1] when there is none or when [start] is beyond the end. *)
Definition find (s sub : str) (start : Z) : Z :=
  let start' := if start <? 0 then Z.max 0 (start + len s) else start in
  if len s <? start' then -1
  else
    match index_of sub (drop (Z.to_nat start') s) with
    | Some i => start' + Z.of_nat i
    | None => -1
    end.

(** [sub in s] *)
Definition contains (sub s : str) : bool :=
  match index_of sub s with
  | Some _ => true
  | None => false
  end.

(** [s.startswith(p)] *)
Definition startswith (s p : str) : bool := is_prefix p s.

(** [sep.join(l)] *)
Fixpoint join (sep : str) (l : list str) : str :=
  match l with
  | [] => []
  | s :: l' =>
      s ++ match l' with
           | [] => []
           | _ => sep ++ join sep l'
           end
  end.

(** [s == t] *)
Definition eqb (s t : str) : bool := bool_decide (s = t).

(** What [str.lower] does to a string of the ASCII range: the 26 capital
    letters move by 32. *)
Definition ascii_lower (c : char) : char :=
  if ((65 <=? c) && (c <=? 90))%N then (c + 32)%N else c.

Definition is_ascii (c : char) : bool := (c <? 128)%N.

(** [str.lower], with what is used of it: on a string of the ASCII range it
    is [ascii_lower] on every character, and the lowercase form of a string
    that is not empty is not empty. Nothing says that it keeps the length
    of a string or that it works character by character: the lowercase form
    of U+0130 has two code points, and the one of a capital sigma depends on
    what stands next to it. *)
Class Unicode := {
  lower : str -> str;
  lower_ascii s : forallb is_ascii s = true -> lower s = map ascii_lower s;
  lower_nonempty s : s <> [] -> lower s <> []
}.

End Py.

(** ** Matcher: [search_terms_in_text] *)

(** [results[term].append(snippet)] on a [defaultdict(list)]: a missing key
    is created with the empty list first. *)
Definition dd_append (term snippet : str)
    (results : gmap str (list str)) : gmap str (list str) :=
  <[term := default [] (results !! term) ++ [snippet]]> results.

(** The snippet taken at a match index [idx] (source lines 162 to 164). *)
Definition snippet_at (text term : str) (idx : Z) : str :=
  let snippet_start := Z.max 0 (idx - 60) in
  let snippet_end := Z.min (Py.len text) (idx + Py.len term + 60) in
  Py.strip (Py.slice text snippet_start snippet_end).

(** The [while True] loop of one term (source lines 158 to 166). *)
Fixpoint search_loop (fuel : nat) (text lower_text term lower_term : str)
    (start : Z) (results : gmap str (list str))
    : option (gmap str (list str)) :=
  match fuel with
  | O => None
  | S fuel' =>
      let idx := Py.find lower_text lower_term start in
      if idx =? -1 then Some results
      else
        let snippet := snippet_at text term idx in
        let results' := dd_append term snippet results in
        let start' := idx + Py.len lower_term in
        search_loop fuel' text lower_text term lower_term start' results'
  end.

(** The [for term in terms] loop (source lines 155 to 166). *)
Fixpoint search_terms `{Py.Unicode} (fuel : nat) (text lower_text : str)
    (terms : list str) (results : gmap str (list str))
    : option (gmap str (list str)) :=
  match terms with
  | [] => Some results
  | term :: terms' =>
      let lower_term := Py.lower term in
      match search_loop fuel text lower_text term lower_term 0 results with
      | None => None
      | Some results' => search_terms fuel text lower_text terms' results'
      end
  end.

Definition search_terms_in_text `{Py.Unicode} (fuel : nat) (text : str)
    (terms : list str) : option (gmap str (list str)) :=
  let results := ∅ in
  let lower_text := Py.lower text in
  search_terms fuel text lower_text terms results.

(** The indices at which the loop of one term finds its matches: the same
    loop with the index recorded in place of the snippet. *)
Fixpoint match_indices (fuel : nat) (lower_text lower_term : str)
    (start : Z) : option (list Z) :=
  match fuel with
  | O => None
  | S fuel' =>
      let idx := Py.find lower_text lower_term start in
      if idx =? -1 then Some []
      else
        match match_indices fuel' lower_text lower_term
                (idx + Py.len lower_term) with
        | None => None
        | Some l => Some (idx :: l)
        end
  end.

(** *** What the specification says of the matcher *)

(** A case-insensitive occurrence of [term] in [text] at index [i], in the
    lowercase view of the specification: the lowercase form of the term
    stands at index [i] of the lowercase form of the text. *)
Definition occurs_at `{Py.Unicode} (text term : str) (i : Z) : Prop :=
  0 <= i /\ i + Py.len (Py.lower term) <= Py.len (Py.lower text) /\
  Py.slice (Py.lower text) i (i + Py.len (Py.lower term)) = Py.lower term.

(** An occurrence of [sub] in [s] at index [i], letter for letter. *)
Definition stands_at (s sub : str) (i : Z) : Prop :=
  0 <= i /\ i + Py.len sub <= Py.len s /\
  Py.substring (Z.to_nat i) (length sub) s = sub.

(** The left-to-right scan of the specification over the lowercase forms:
    from [start], the next match is the first occurrence at or after
    [start], and the scan resumes at that index plus [advance]. *)
Inductive scan (ltext lterm : str) (advance : Z) : Z -> list Z -> Prop :=
  | scan_end start :
      (forall j, start <= j -> ~ stands_at ltext lterm j) ->
      scan ltext lterm advance start []
  | scan_hit start i rest :
      start <= i ->
      stands_at ltext lterm i ->
      (forall j, start <= j < i -> ~ stands_at ltext lterm j) ->
      scan ltext lterm advance (i + advance) rest ->
      scan ltext lterm advance start (i :: rest).

(** The window of the specification around a match at [i]: the characters
    of [text] from [i - 60] to [i + len term + 60], both clamped to the
    text, trimmed. *)
Definition window (text term : str) (i : Z) : str :=
  let lo := Z.max 0 (i - 60) in
  let hi := Z.min (Py.len text) (i + Py.len term + 60) in
  Py.strip (Py.substring (Z.to_nat lo) (Z.to_nat (hi - lo)) text).

(** The mapping with one term and its snippets, no key when there is none. *)
Definition one_term (term : str) (snippets : list str)
    : gmap str (list str) :=
  match snippets with
  | [] => ∅
  | _ => {[ term := snippets ]}
  end.

(** ** Exceptions and results *)

(** The exceptions the program meets. The first four are subclasses of
    [requests.RequestException]; all of them are subclasses of
    [Exception]. [RecursionError] is what the interpreter raises at a call
    that would nest deeper than its limit. *)
Inductive exn :=
  | ConnectionError
  | Timeout
  | HTTPError (status : Z)
  | InvalidURL
  | ValueError
  | ParserError
  | RecursionError.

(** [isinstance(e, requests.RequestException)] *)
Definition is_request_exception (e : exn) : bool :=
  match e with
  | ConnectionError | Timeout | HTTPError _ | InvalidURL => true
  | ValueError | ParserError | RecursionError => false
  end.

(** A call either returns or raises. *)
Inductive res (A : Type) :=
  | Ret (a : A)
  | Raise (e : exn).
Arguments Ret {A} a.
Arguments Raise {A} e.

Definition res_bind {A B} (r : res A) (k : A -> res B) : res B :=
  match r with
  | Ret a => k a
  | Raise e => Raise e
  end.

(** ** Parsed documents (BeautifulSoup) *)

(** A document as the parser returns it: the strings of the document, each
    with its class, and the tags. [Text] is a [NavigableString], [CData] a
    CDATA section, and [Comment] stands for the classes that no text is read
    from (comment, declaration, doctype, processing instruction). *)
Local Unset Elimination Schemes.
Inductive node :=
  | Text (s : str)
  | CData (s : str)
  | Comment (s : str)
  | Tag (name : str) (attrs : list (str * str)) (children : list node).
Local Set Elimination Schemes.

(** [attrs.get(key)] *)
Fixpoint attr_get (key : str) (attrs : list (str * str)) : option str :=
  match attrs with
  | [] => None
  | (k, v) :: attrs' => if Py.eqb k key then Some v else attr_get key attrs'
  end.

(** [find_all] with a test on the name and the attributes: every matching
    tag below the node and the node itself, in document order. *)
Fixpoint find_all_node (p : str -> list (str * str) -> bool) (n : node)
    : list node :=
  match n with
  | Text _ | CData _ | Comment _ => []
  | Tag name attrs children =>
      (if p name attrs then [n] else [])
        ++ flat_map (find_all_node p) children
  end.

Definition find_all (p : str -> list (str * str) -> bool) (soup : list node)
    : list node :=
  flat_map (find_all_node p) soup.

Definition children_of (n : node) : list node :=
  match n with
  | Tag _ _ children => children
  | _ => []
  end.

(** [tag.find(name)]: the first tag of that name below [tag]. *)
Definition find (name : str) (tag : node) : option node :=
  head (find_all (fun n _ => Py.eqb n name) (children_of tag)).

(** The elements whose strings the HTML tree builder gives a class of their
    own (ruby text, style sheet, script, template); the XML tree builder has
    none. *)
Definition HTML_STRING_CONTAINERS : list str :=
  [ "rt"; "rp"; "style"; "script"; "template" ].

Definition XML_STRING_CONTAINERS : list str := [].

(** The strings [get_text] joins, in document order: those of the classes
    [NavigableString] and [CData]. The tree builder gives a
    [NavigableString] that stands below an element named in [containers],
    whatever stands between the two, the class of that container, and it
    does not count then; a CDATA section keeps its class wherever it
    stands. [inside] tells that such an element is above. *)
Fixpoint all_strings (containers : list str) (inside : bool) (n : node)
    : list str :=
  match n with
  | Text s => if inside then [] else [s]
  | CData s => [s]
  | Comment _ => []
  | Tag name _ children =>
      flat_map
        (all_strings containers (inside || bool_decide (name ∈ containers)))
        children
  end.

(** [soup.get_text(separator=sep)] on an HTML document *)
Definition get_text (sep : str) (soup : list node) : str :=
  Py.join sep (flat_map (all_strings HTML_STRING_CONTAINERS false) soup).

(** [tag.text] in an XML document *)
Definition text_of (tag : node) : str :=
  Py.join "" (all_strings XML_STRING_CONTAINERS false tag).

(** [for tag in soup(names): tag.decompose()]: every tag whose name is in
    [names] leaves the tree with all that is below it. *)
Fixpoint decompose_node (names : list str) (n : node) : list node :=
  match n with
  | Text _ | CData _ | Comment _ => [n]
  | Tag name attrs children =>
      if bool_decide (name ∈ names) then []
      else [Tag name attrs (flat_map (decompose_node names) children)]
  end.

Definition decompose_all (names : list str) (soup : list node) : list node :=
  flat_map (decompose_node names) soup.

(** ** The outside world *)

Record response := {
  status_code : Z;
  content_type : option str;   (* the Content-Type header, when present *)
  text : str
}.

(** What the program calls and does not define: the HTTP session, the two
    parsers of BeautifulSoup, the three uses of [urllib.parse] and
    [time.sleep], which raises on a length it does not accept.
    [url_defrag u] is [urlparse(u)._replace(fragment="").geturl()]. *)
Class Web := {
  http_get : str -> res response;
  html_parser : str -> list node;
  xml_parser : str -> res (list node);
  urljoin : str -> str -> res str;
  urlparse_netloc : str -> res str;
  url_defrag : str -> str;
  time_sleep : float -> res unit
}.

(** ** URL filter *)

Definition is_internal_url `{Web} (url root_domain : str) : bool :=
  match urlparse_netloc url with
  | Ret netloc => Py.eqb netloc "" || Py.eqb netloc root_domain
  | Raise _ => false
  end.

Definition EXCLUDE_PATTERNS : list str :=
  [ ".pdf"; ".jpg"; ".jpeg"; ".png"; ".gif"; ".svg"; ".webp";
    ".css"; ".js"; ".ico";
    "/wp-admin"; "/wp-login";
    "mailto:"; "tel:" ].

Definition should_skip_url `{Py.Unicode} (url : str) : bool :=
  let lower := Py.lower url in
  existsb (fun pat => Py.contains pat lower) EXCLUDE_PATTERNS.

(** ** Fetcher *)

Definition fetch_html `{Web} (url : str) : res (option str) :=
  match http_get url with
  | Ret resp =>
      if negb (status_code resp =? 200) then Ret None
      else if negb (Py.contains "text/html" (default "" (content_type resp)))
      then Ret None
      else Ret (Some (text resp))
  | Raise e => if is_request_exception e then Ret None else Raise e
  end.

(** [if not html]: [None] and the empty string are both false. *)
Definition falsy (html : option str) : bool :=
  match html with
  | None => true
  | Some s => Py.eqb s ""
  end.

(** ** Sitemap resolver: [get_urls_from_sitemap] *)

(** [st.warning(f"Error reading sitemap {sitemap_url}: {e}")] *)
Record warning := { warned_url : str; warned_exn : exn }.

(** [resp.raise_for_status()] *)
Definition raise_for_status (resp : response) : res unit :=
  if (400 <=? status_code resp) && (status_code resp <? 600)
  then Raise (HTTPError (status_code resp))
  else Ret tt.

(** The three statements of the [try] block that can raise (source lines 61
    to 63). *)
Definition read_sitemap `{Web} (sitemap_url : str) : res (list node) :=
  match http_get sitemap_url with
  | Raise e => Raise e
  | Ret resp =>
      match raise_for_status resp with
      | Raise e => Raise e
      | Ret _ => xml_parser (text resp)
      end
  end.

(** [loc = tag.find("loc")] followed by [if loc and loc.text]: the stripped
    text of the location element, when there is one with a text. *)
Definition loc_of (tag : node) : option str :=
  match find "loc" tag with
  | Some loc =>
      if Py.eqb (text_of loc) "" then None else Some (Py.strip (text_of loc))
  | None => None
  end.

Definition is_named (name : str) : str -> list (str * str) -> bool :=
  fun n _ => Py.eqb n name.

(** The loop over the entries of a sitemap index (source lines 67 to 71),
    with the recursive call as a parameter [resolve]. The call is inside
    the [try] block: when it raises, the loop is left, the [except] clause
    shows a warning that names [sitemap_url], and the function returns what
    it has. *)
Fixpoint index_loop (resolve : str -> res (gset str * list warning))
    (sitemap_url : str) (sitemap_tags : list node)
    (urls : gset str) (warnings : list warning)
    : gset str * list warning :=
  match sitemap_tags with
  | [] => (urls, warnings)
  | sm :: sitemap_tags' =>
      match loc_of sm with
      | None => index_loop resolve sitemap_url sitemap_tags' urls warnings
      | Some loc =>
          match resolve loc with
          | Ret (sub, ws) =>
              index_loop resolve sitemap_url sitemap_tags'
                (urls ∪ sub) (warnings ++ ws)
          | Raise e =>
              (urls,
               warnings ++ [ {| warned_url := sitemap_url; warned_exn := e |} ])
          end
      end
  end.

(** The body of the function; the result is the set returned and the
    warnings shown on the way, in order. *)
Definition sitemap_body `{Web}
    (resolve : str -> res (gset str * list warning))
    (sitemap_url : str) : gset str * list warning :=
  match read_sitemap sitemap_url with
  | Raise e => (∅, [ {| warned_url := sitemap_url; warned_exn := e |} ])
  | Ret soup =>
      let sitemap_tags := find_all (is_named "sitemap") soup in
      match sitemap_tags with
      | _ :: _ => index_loop resolve sitemap_url sitemap_tags ∅ []
      | [] =>
          (foldl
             (fun urls url_tag =>
                match loc_of url_tag with
                | None => urls
                | Some loc => urls ∪ {[ loc ]}
                end)
             ∅ (find_all (is_named "url") soup), [])
      end
  end.

(** [limit] is the number of nested calls of the function that the
    interpreter still allows: a call beyond it raises [RecursionError] in
    the caller, and a call within it returns, because the [except] clause
    catches every exception the body meets. *)
Fixpoint get_urls_from_sitemap `{Web} (limit : nat) (sitemap_url : str)
    : res (gset str * list warning) :=
  match limit with
  | O => Raise RecursionError
  | S limit' => Ret (sitemap_body (get_urls_from_sitemap limit') sitemap_url)
  end.

(** ** Crawler: [crawl_site] *)

(** What one run of the crawler does, in order: the URL popped from the
    frontier, the URL added to [seen], the request sent, the URL appended to
    the frontier, the pause. *)
Inductive event :=
  | EvPop (url : str)
  | EvSeen (url : str)
  | EvFetch (url : str)
  | EvAppend (url : str)
  | EvSleep (seconds : float).

Record crawl_state := {
  to_visit : list str;
  seen : gset str;
  all_urls : gset str;
  trace : list event
}.

Definition has_href : str -> list (str * str) -> bool :=
  fun n attrs => Py.eqb n "a" && bool_decide (is_Some (attr_get "href" attrs)).

(** [a["href"]] of a tag found by [find_all("a", href=True)] *)
Definition href_of (a : node) : str :=
  match a with
  | Tag _ attrs _ => default "" (attr_get "href" attrs)
  | _ => ""
  end.

(** The loop over the anchors of a fetched page (source lines 113 to 126);
    [seen] does not change in it. *)
Fixpoint enqueue_links `{Py.Unicode} `{Web} (current root_domain : str)
    (seen : gset str) (anchors : list node)
    (to_visit : list str) (trace : list event)
    : res (list str * list event) :=
  match anchors with
  | [] => Ret (to_visit, trace)
  | a :: anchors' =>
      let href := Py.strip (href_of a) in
      if Py.startswith href "#"
      then enqueue_links current root_domain seen anchors' to_visit trace
      else
        match urljoin current href with
        | Raise e => Raise e
        | Ret absolute =>
            if negb (is_internal_url absolute root_domain)
            then enqueue_links current root_domain seen anchors' to_visit trace
            else
              let normalized := url_defrag absolute in
              if bool_decide (normalized ∉ seen)
                 && negb (should_skip_url normalized)
              then enqueue_links current root_domain seen anchors'
                     (to_visit ++ [normalized]) (trace ++ [EvAppend normalized])
              else enqueue_links current root_domain seen anchors' to_visit trace
        end
  end.

(** One turn of the [while] loop, with [current] already popped and [rest]
    the frontier left (source lines 95 to 128). *)
Definition crawl_iteration `{Py.Unicode} `{Web} (root_domain : str)
    (delay : float) (current : str) (rest : list str) (st : crawl_state)
    : res crawl_state :=
  let tr1 := trace st ++ [EvPop current] in
  if bool_decide (current ∈ seen st)
  then Ret {| to_visit := rest; seen := seen st;
              all_urls := all_urls st; trace := tr1 |}
  else
    let seen' := seen st ∪ {[ current ]} in
    let tr2 := tr1 ++ [EvSeen current] in
    if should_skip_url current
    then Ret {| to_visit := rest; seen := seen';
                all_urls := all_urls st; trace := tr2 |}
    else
      let tr3 := tr2 ++ [EvFetch current] in
      match fetch_html current with
      | Raise e => Raise e
      | Ret html =>
          if falsy html
          then Ret {| to_visit := rest; seen := seen';
                      all_urls := all_urls st; trace := tr3 |}
          else
            let all_urls' := all_urls st ∪ {[ current ]} in
            let soup := html_parser (default "" html) in
            match enqueue_links current root_domain seen'
                    (find_all has_href soup) rest tr3 with
            | Raise e => Raise e
            | Ret (to_visit', tr4) =>
                match time_sleep delay with
                | Raise e => Raise e
                | Ret _ =>
                    Ret {| to_visit := to_visit'; seen := seen';
                           all_urls := all_urls';
                           trace := tr4 ++ [EvSleep delay] |}
                end
            end
      end.

(** [while to_visit and len(seen) < max_pages]; [None] when the fuel is
    spent and the loop has not left. *)
Fixpoint crawl_loop `{Py.Unicode} `{Web} (fuel : nat) (root_domain : str)
    (max_pages : Z) (delay : float) (st : crawl_state)
    : option (res crawl_state) :=
  match to_visit st with
  | [] => Some (Ret st)
  | current :: rest =>
      if Z.of_nat (size (seen st)) <? max_pages
      then
        match fuel with
        | O => None
        | S fuel' =>
            match crawl_iteration root_domain delay current rest st with
            | Raise e => Some (Raise e)
            | Ret st' => crawl_loop fuel' root_domain max_pages delay st'
            end
        end
      else Some (Ret st)
  end.

Definition crawl_start (start_url : str) : crawl_state :=
  {| to_visit := [start_url]; seen := ∅; all_urls := ∅; trace := [] |}.

(** The run of [crawl_site] up to the end of its loop. *)
Definition crawl_run `{Py.Unicode} `{Web} (fuel : nat) (start_url : str)
    (max_pages : Z) (delay : float) : option (res crawl_state) :=
  match urlparse_netloc start_url with
  | Raise e => Some (Raise e)
  | Ret root_domain =>
      crawl_loop fuel root_domain max_pages delay (crawl_start start_url)
  end.

Definition crawl_site `{Py.Unicode} `{Web} (fuel : nat) (start_url : str)
    (max_pages : Z) (delay : float) : option (res (gset str)) :=
  match crawl_run fuel start_url max_pages delay with
  | None => None
  | Some (Raise e) => Some (Raise e)
  | Some (Ret st) => Some (Ret (all_urls st))
  end.

(** ** Text extractor: [extract_visible_text] *)

(** [re.sub(r"\s+", " ", text)]: every maximal run of whitespace becomes one
    space. [in_run] tells that the character before was whitespace. *)
Fixpoint collapse_ws (in_run : bool) (s : str) : str :=
  match s with
  | [] => []
  | c :: s' =>
      if Py.isspace c
      then if in_run then collapse_ws true s'
           else 32%N :: collapse_ws true s'
      else c :: collapse_ws false s'
  end.

Definition HIDDEN : list str := [ "script"; "style"; "noscript" ].

(** From the parsed document on (source lines 140 to 145). *)
Definition visible_text (soup : list node) : str :=
  let soup' := decompose_all HIDDEN soup in
  let text := get_text " " soup' in
  let text := collapse_ws false text in
  Py.strip text.

Definition extract_visible_text `{Web} (html : str) : str :=
  visible_text (html_parser html).

(** * Notions used to state the properties *)

(** ** Matcher *)

(** The results so far hold only terms that occur, each with a snippet. *)
Definition sound `{Py.Unicode} (text : str) (results : gmap str (list str))
    : Prop :=
  forall t l, results !! t = Some l ->
    l <> [] /\ exists i, occurs_at text t i.

(** ** Text extractor *)

Definition starts_with_space (s : str) : bool :=
  match s with
  | [] => false
  | c :: _ => Py.isspace c
  end.

Fixpoint ends_with_space (s : str) : bool :=
  match s with
  | [] => false
  | [c] => Py.isspace c
  | _ :: s' => ends_with_space s'
  end.

(** Every whitespace character is a space, and the character after it, if
    any, is not whitespace. *)
Fixpoint single_spaced (s : str) : bool :=
  match s with
  | [] => true
  | c :: s' =>
      (negb (Py.isspace c) || ((c =? 32)%N && negb (starts_with_space s')))
      && single_spaced s'
  end.

(** The words of a string: its maximal runs of characters that are not
    whitespace, in order. *)
Fixpoint words (s : str) : list str :=
  match s with
  | [] => []
  | c :: s' =>
      if Py.isspace c then words s'
      else if starts_with_space s' then [c] :: words s'
      else
        match words s' with
        | w :: ws => (c :: w) :: ws
        | [] => [[c]]
        end
  end.

(** The strings of a document that are shown, in document order: nothing
    of what stands below an element named [script], [style] or [noscript];
    of the rest, the CDATA sections, and the other strings unless they
    stand below a string container ([below] tells that one is above). *)
Fixpoint visible_strings (below : bool) (n : node) : list str :=
  match n with
  | Text s => if below then [] else [s]
  | CData s => [s]
  | Comment _ => []
  | Tag name _ children =>
      if bool_decide (name ∈ HIDDEN) then []
      else
        flat_map
          (visible_strings
             (below || bool_decide (name ∈ HTML_STRING_CONTAINERS)))
          children
  end.

(** Two documents that differ at most below tags named in [names] (and in
    the attributes of those tags). *)
Inductive same_outside (names : list str) : node -> node -> Prop :=
  | same_text s : same_outside names (Text s) (Text s)
  | same_cdata s : same_outside names (CData s) (CData s)
  | same_comment s : same_outside names (Comment s) (Comment s)
  | same_hidden name attrs attrs' children children' :
      name ∈ names ->
      same_outside names (Tag name attrs children) (Tag name attrs' children')
  | same_tag name attrs children children' :
      Forall2 (same_outside names) children children' ->
      same_outside names (Tag name attrs children) (Tag name attrs children').

(** ** Sitemap resolver *)

(** The locations a sitemap index names, in order. *)
Definition index_locs (sitemap_tags : list node) : list str :=
  omap loc_of sitemap_tags.

(** The page URLs of a flat sitemap. *)
Definition urlset_pages (soup : list node) : gset str :=
  list_to_set (omap loc_of (find_all (is_named "url") soup)).

(** What the sitemaps reachable from one URL look like when the references
    between them form a finite tree. *)
Local Unset Elimination Schemes.
Inductive smtree :=
  | SmFailed (url : str) (e : exn)
  | SmUrlset (url : str) (pages : gset str)
  | SmIndex (url : str) (children : list smtree).
Local Set Elimination Schemes.

Inductive sitemap_tree `{Web} : str -> smtree -> Prop :=
  | tree_failed url e :
      read_sitemap url = Raise e ->
      sitemap_tree url (SmFailed url e)
  | tree_urlset url soup :
      read_sitemap url = Ret soup ->
      find_all (is_named "sitemap") soup = [] ->
      sitemap_tree url (SmUrlset url (urlset_pages soup))
  | tree_index url soup children :
      read_sitemap url = Ret soup ->
      find_all (is_named "sitemap") soup <> [] ->
      Forall2 sitemap_tree
        (index_locs (find_all (is_named "sitemap") soup)) children ->
      sitemap_tree url (SmIndex url children).

(** How deep the resolver recurses on the tree: the longest chain of
    references below the root. *)
Fixpoint tree_depth (t : smtree) : nat :=
  match t with
  | SmFailed _ _ | SmUrlset _ _ => 0
  | SmIndex _ children =>
      foldr (fun c d => Nat.max (S (tree_depth c)) d) 0%nat children
  end.

(** The page URLs of the nodes that could be read. *)
Fixpoint tree_pages (t : smtree) : gset str :=
  match t with
  | SmFailed _ _ => ∅
  | SmUrlset _ pages => pages
  | SmIndex _ children => foldr (fun c acc => tree_pages c ∪ acc) ∅ children
  end.

(** One warning for each node that could not be read, in the order of the
    visit. *)
Fixpoint tree_warnings (t : smtree) : list warning :=
  match t with
  | SmFailed url e => [ {| warned_url := url; warned_exn := e |} ]
  | SmUrlset _ _ => []
  | SmIndex _ children => flat_map tree_warnings children
  end.

(** The sitemap at [u] is an index that can be read and that names [v]. *)
Definition entry `{Web} (u v : str) : Prop :=
  exists soup,
    read_sitemap u = Ret soup
    /\ v ∈ index_locs (find_all (is_named "sitemap") soup).

(** A sitemap whose index entries reference it, directly or through other
    indexes. *)
Definition self_referential `{Web} (u : str) : Prop := tc entry u u.

(** [v] is reached from [u] through [n] index entries. *)
Fixpoint chain `{Web} (n : nat) (u v : str) : Prop :=
  match n with
  | O => u = v
  | S n' => exists w, entry u w /\ chain n' w v
  end.

(** ** Crawler *)



(** A page that the fetcher returns with a body that is not empty. *)
Definition fetched `{Web} (url : str) : Prop :=
  exists html, fetch_html url = Ret (Some html) /\ html <> [].


(** Reading a trace from its start: the URLs added to [seen] and the URLs
    requested so far; [None] as soon as a URL is requested a second time, or
    appended to the frontier after it was added to [seen]. *)
Definition replay_step (acc : option (gset str * gset str))
    (ev : event) : option (gset str * gset str) :=
  match acc with
  | None => None
  | Some (s, f) =>
      match ev with
      | EvSeen u => Some (s ∪ {[ u ]}, f)
      | EvFetch u => if bool_decide (u ∈ f) then None else Some (s, f ∪ {[ u ]})
      | EvAppend u => if bool_decide (u ∈ s) then None else Some (s, f)
      | EvPop _ | EvSleep _ => Some (s, f)
      end
  end.

Definition replay (tr : list event) : option (gset str * gset str) :=
  foldl replay_step (Some (∅, ∅)) tr.

(** The trace of a state reads without a repeat, up to the set [seen] of
    the state, and what was requested is in [seen]. *)
Definition trace_inv (st : crawl_state) : Prop :=
  exists f, replay (trace st) = Some (seen st, f) /\ f ⊆ seen st.

(** ** Small worlds to run the program in *)

(** The lowercase mapping of Python on Basic Latin, on Latin-1 and on
    U+0130, whose lowercase form is the letter i followed by the combining
    dot above; every other code point is kept. It is [str.lower] on the
    strings made of these code points and of code points without case. *)
Definition latin_lower_char (c : char) : str :=
  if ((65 <=? c) && (c <=? 90))%N then [(c + 32)%N]
  else if ((192 <=? c) && (c <=? 222) && negb (c =? 215))%N then [(c + 32)%N]
  else if (c =? 304)%N then [105%N; 775%N]
  else [c].

Definition latin_lower (s : str) : str := flat_map latin_lower_char s.

Definition latin : Py.Unicode.
Proof.
  refine {| Py.lower := latin_lower |}.
  - induction s as [|c s IH]; [reflexivity|]. cbn [forallb]. intros Hs.
    apply andb_prop in Hs as [Hc Hs]. unfold latin_lower in *.
    cbn [flat_map map]. rewrite (IH Hs). f_equal.
    unfold Py.is_ascii in Hc. apply N.ltb_lt in Hc.
    unfold latin_lower_char, Py.ascii_lower.
    destruct ((65 <=? c) && (c <=? 90))%N; [reflexivity|].
    destruct (N.leb_spec 192 c); [lia|]. cbn [andb].
    destruct (N.eqb_spec c 304); [lia | reflexivity].
  - intros [|c s]; [congruence|]. intros _. unfold latin_lower.
    cbn [flat_map]. unfold latin_lower_char.
    destruct ((65 <=? c) && (c <=? 90))%N; [discriminate|].
    destruct ((192 <=? c) && (c <=? 222) && negb (c =? 215))%N;
      [discriminate|].
    destruct (c =? 304)%N; discriminate.
Defined.

Fixpoint assoc {A} (key : str) (l : list (str * A)) : option A :=
  match l with
  | [] => None
  | (k, v) :: l' => if Py.eqb k key then Some v else assoc key l'
  end.

(** [u] up to its first [#]. *)
Fixpoint before_hash (u : str) : str :=
  match u with
  | [] => []
  | c :: u' => if (c =? 35)%N then [] else c :: before_hash u'
  end.

(** A web given by two tables: what each URL answers, and the document each
    body parses to. Every reference in it is an absolute URL of the host
    [example.com], so that [urljoin] gives the reference back and the host
    is always the same. A URL that is not in the table refuses the
    connection. [time.sleep] refuses a negative length. *)
Definition table_web (http : list (str * res response))
    (docs : list (str * list node)) : Web :=
  {| http_get url := default (Raise ConnectionError) (assoc url http);
     html_parser body := default [] (assoc body docs);
     xml_parser body :=
       match assoc body docs with
       | Some d => Ret d
       | None => Raise ParserError
       end;
     urljoin _ href := Ret href;
     urlparse_netloc _ := Ret "example.com";
     url_defrag := before_hash;
     time_sleep seconds :=
       if PrimFloat.leb 0 seconds then Ret tt else Raise ValueError |}.

Definition ok_html (body : str) : res response :=
  Ret {| status_code := 200;
         content_type := Some "text/html; charset=utf-8";
         text := body |}.

Definition ok_xml (body : str) : res response :=
  Ret {| status_code := 200;
         content_type := Some "application/xml";
         text := body |}.

Definition not_found : res response :=
  Ret {| status_code := 404; content_type := Some "text/html"; text := "" |}.

Definition link (href : str) : node := Tag "a" [("href", href)] [Text "link"].

Definition loc (u : str) : node := Tag "loc" [] [Text u].

(** A sitemap index with three children: the second one is missing, the
    first and the third share one page. *)
Definition doc_index : list node :=
  [ Tag "sitemapindex" []
      [ Tag "sitemap" [] [loc "https://example.com/sitemap-a.xml"];
        Tag "sitemap" [] [loc "https://example.com/sitemap-c.xml"];
        Tag "sitemap" [] [loc " https://example.com/sitemap-b.xml "] ] ].

Definition doc_a : list node :=
  [ Tag "urlset" []
      [ Tag "url" [] [loc "https://example.com/"];
        Tag "url" [] [loc "https://example.com/a1"];
        Tag "url" [] [loc "https://example.com/a2"] ] ].

Definition doc_b : list node :=
  [ Tag "urlset" []
      [ Tag "url" [] [loc "https://example.com/"];
        Tag "url" [] [loc "https://example.com/b1"];
        Tag "url" [] [loc "https://example.com/b2"] ] ].

Definition sitemap_web : Web :=
  table_web
    [ ("https://example.com/sitemap.xml", ok_xml "index");
      ("https://example.com/sitemap-a.xml", ok_xml "a");
      ("https://example.com/sitemap-b.xml", ok_xml "b");
      ("https://example.com/sitemap-c.xml", not_found) ]
    [ ("index", doc_index); ("a", doc_a); ("b", doc_b) ].

Definition sitemap_web_tree : smtree :=
  SmIndex "https://example.com/sitemap.xml"
    [ SmUrlset "https://example.com/sitemap-a.xml" (urlset_pages doc_a);
      SmFailed "https://example.com/sitemap-c.xml" (HTTPError 404);
      SmUrlset "https://example.com/sitemap-b.xml" (urlset_pages doc_b) ].

(** A sitemap index whose only entry is its own address. *)
Definition doc_self : list node :=
  [ Tag "sitemapindex" []
      [ Tag "sitemap" [] [loc "https://example.com/sitemap.xml"] ] ].

Definition self_web : Web :=
  table_web [ ("https://example.com/sitemap.xml", ok_xml "self") ]
            [ ("self", doc_self) ].

(** Two sitemap indexes that name each other; the first one names a flat
    sitemap too, before and after the other index. *)
Definition doc_ring_1 : list node :=
  [ Tag "sitemapindex" []
      [ Tag "sitemap" [] [loc "https://example.com/sitemap-a.xml"];
        Tag "sitemap" [] [loc "https://example.com/ring-2.xml"];
        Tag "sitemap" [] [loc "https://example.com/sitemap-b.xml"] ] ].

Definition doc_ring_2 : list node :=
  [ Tag "sitemapindex" []
      [ Tag "sitemap" [] [loc "https://example.com/ring-1.xml"] ] ].

Definition ring_web : Web :=
  table_web
    [ ("https://example.com/ring-1.xml", ok_xml "ring-1");
      ("https://example.com/ring-2.xml", ok_xml "ring-2");
      ("https://example.com/sitemap-a.xml", ok_xml "a");
      ("https://example.com/sitemap-b.xml", ok_xml "b") ]
    [ ("ring-1", doc_ring_1); ("ring-2", doc_ring_2);
      ("a", doc_a); ("b", doc_b) ].

(** A site with a cycle: the home page and page [a] link to each other,
    page [b] is missing. *)
Definition doc_home : list node :=
  [ Tag "html" []
      [ Tag "body" []
          [ link "https://example.com/a";
            link "https://example.com/b";
            link " https://example.com/a#team ";
            link "#top";
            link "https://example.com/logo.png";
            link "https://example.com/#contact" ] ] ].

Definition doc_page_a : list node :=
  [ Tag "body" [] [ link "https://example.com/"; link "https://example.com/b" ] ].

Definition crawl_web : Web :=
  table_web
    [ ("https://example.com/", ok_html "home");
      ("https://example.com/a", ok_html "a");
      ("https://example.com/b", not_found) ]
    [ ("home", doc_home); ("a", doc_page_a) ].


(** One page that links to itself; the server answers the same page
    whatever the fragment of the address, which is not sent. *)
Definition doc_single : list node :=
  [ Tag "body" [] [ link "https://example.com/" ] ].

Definition frag_web : Web :=
  table_web
    [ ("https://example.com/#top", ok_html "single");
      ("https://example.com/", ok_html "single") ]
    [ ("single", doc_single) ].

(** A text with one capital I with a dot above (U+0130) at its start: 69
    letters [x], the word [brand], 70 letters [y]. The word stands at index
    70 of the text and at index 71 of its lowercase form. *)
Definition dotted_text : str :=
  "İ" ++ replicate 69 120%N ++ "brand" ++ replicate 70 121%N.

(** Seventy such capitals before the word. *)
Definition dotted_run : str := replicate 70 304%N ++ "brand".

(** * Properties *)

(** ** Strings *)

Section StringFacts.

Implicit Types (s sub p : str) (c : char).

Lemma eqb_eq s t : Py.eqb s t = true <-> s = t.
Proof. unfold Py.eqb. apply bool_decide_eq_true. Qed.

Lemma eqb_neq s t : Py.eqb s t = false <-> s <> t.
Proof. unfold Py.eqb. apply bool_decide_eq_false. Qed.

Lemma lower_nil `{Py.Unicode} : Py.lower [] = [].
Proof. now rewrite Py.lower_ascii. Qed.

Lemma lower_empty `{Py.Unicode} s : Py.lower s = [] <-> s = [].
Proof.
  split; [|intros ->; apply lower_nil]. intros E.
  destruct s as [|c s]; [reflexivity|].
  exfalso. apply (Py.lower_nonempty (c :: s)); [discriminate | exact E].
Qed.

Lemma substring_length n m s :
  length (Py.substring n m s) = Nat.min m (length s - n).
Proof. unfold Py.substring. now rewrite length_take, length_drop. Qed.

Lemma substring_zero n s : Py.substring n 0 s = [].
Proof. reflexivity. Qed.

Lemma is_prefix_spec p s :
  Py.is_prefix p s = true <-> take (length p) s = p.
Proof.
  revert s. induction p as [|c p IH]; intros [|d s]; cbn; try tauto.
  - split; discriminate.
  - rewrite andb_true_iff, N.eqb_eq, IH. split.
    + intros [-> ->]. reflexivity.
    + intros E. inversion E; subst. rewrite H1. auto.
Qed.

Lemma is_prefix_fits p s :
  Py.is_prefix p s = true -> (length p <= length s)%nat.
Proof.
  intros E. apply is_prefix_spec in E. apply (f_equal length) in E.
  rewrite length_take in E. lia.
Qed.

(** What [index_of] answers: the lowest index at which [sub] stands. *)
Lemma index_of_some sub s i :
  Py.index_of sub s = Some i ->
  (i + length sub <= length s)%nat
  /\ Py.substring i (length sub) s = sub
  /\ forall j, (j < i)%nat -> Py.substring j (length sub) s <> sub.
Proof.
  revert i. induction s as [|c s IH]; intros i; cbn [Py.index_of].
  - destruct (Py.is_prefix sub []) eqn:Ep; [|discriminate].
    intros E. inversion E; subst. pose proof (is_prefix_fits _ _ Ep).
    apply is_prefix_spec in Ep. repeat split; [cbn in *; lia | exact Ep | lia].
  - destruct (Py.is_prefix sub (c :: s)) eqn:Ep.
    + intros E. inversion E; subst. pose proof (is_prefix_fits _ _ Ep).
      apply is_prefix_spec in Ep. repeat split; [lia | exact Ep | lia].
    + destruct (Py.index_of sub s) as [k|] eqn:Ek; [|discriminate].
      intros E. inversion E; subst. destruct (IH k eq_refl) as (Hfit & Hsub & Hmin).
      repeat split; [cbn; lia | exact Hsub |].
      intros [|j] Hj.
      * unfold Py.substring. cbn [drop]. intros Hp.
        apply is_prefix_spec in Hp. congruence.
      * apply (Hmin j). lia.
Qed.

Lemma index_of_none sub s j :
  Py.index_of sub s = None -> Py.substring j (length sub) s <> sub.
Proof.
  revert j. induction s as [|c s IH]; intros j; cbn [Py.index_of].
  - destruct (Py.is_prefix sub []) eqn:Ep; [discriminate|]. intros _ E.
    unfold Py.substring in E. rewrite drop_nil in E.
    apply Bool.not_true_iff_false in Ep. apply Ep, is_prefix_spec.
    destruct sub; [reflexivity|]. now destruct j.
  - destruct (Py.is_prefix sub (c :: s)) eqn:Ep; [discriminate|].
    destruct (Py.index_of sub s) as [k|] eqn:Ek; [discriminate|]. intros _.
    destruct j as [|j].
    + unfold Py.substring. cbn [drop]. intros Hp.
      apply is_prefix_spec in Hp. congruence.
    + apply (IH j eq_refl).
Qed.

Lemma index_of_nil s : Py.index_of [] s = Some 0%nat.
Proof. destruct s; reflexivity. Qed.

Lemma substring_drop n j m s :
  Py.substring j m (drop n s) = Py.substring (n + j) m s.
Proof. unfold Py.substring. now rewrite drop_drop. Qed.

End StringFacts.

(** ** Matcher *)

Section Matcher.

Context `{Py.Unicode}.

Implicit Types (text term : str) (results : gmap str (list str)).

Lemma find_hit s sub start idx :
  0 <= start -> Py.find s sub start = idx -> idx <> -1 ->
  start <= idx /\ idx + Py.len sub <= Py.len s /\
  Py.substring (Z.to_nat idx) (length sub) s = sub /\
  (forall j, start <= j < idx ->
     Py.substring (Z.to_nat j) (length sub) s <> sub).
Proof.
  intros Hs E Hne. unfold Py.find in E.
  destruct (Z.ltb_spec start 0) as [?|_]; [lia|].
  destruct (Z.ltb_spec (Py.len s) start) as [?|Hin]; [lia|].
  destruct (Py.index_of sub (drop (Z.to_nat start) s)) as [i|] eqn:Hi; [|lia].
  subst idx. apply index_of_some in Hi as (Hfit & Hsub & Hmin).
  rewrite length_drop in Hfit. rewrite substring_drop in Hsub.
  unfold Py.len in *. repeat split; try lia.
  - replace (Z.to_nat (start + Z.of_nat i)) with (Z.to_nat start + i)%nat
      by lia.
    exact Hsub.
  - intros j Hj. specialize (Hmin (Z.to_nat j - Z.to_nat start)%nat).
    rewrite substring_drop in Hmin.
    replace (Z.to_nat start + (Z.to_nat j - Z.to_nat start))%nat
      with (Z.to_nat j) in Hmin by lia.
    apply Hmin. lia.
Qed.

Lemma find_miss s sub start :
  0 <= start -> sub <> [] -> Py.find s sub start = -1 ->
  forall j, start <= j ->
    Py.substring (Z.to_nat j) (length sub) s <> sub.
Proof.
  intros Hs Hne E j Hj. unfold Py.find in E.
  destruct (Z.ltb_spec start 0) as [?|_]; [lia|].
  destruct (Z.ltb_spec (Py.len s) start) as [Hout|Hin].
  - unfold Py.substring, Py.len in *. rewrite drop_ge by lia.
    rewrite take_nil. congruence.
  - destruct (Py.index_of sub (drop (Z.to_nat start) s)) as [i|] eqn:Hi; [lia|].
    pose proof (index_of_none _ _ (Z.to_nat j - Z.to_nat start)%nat Hi) as Hno.
    rewrite substring_drop in Hno.
    replace (Z.to_nat start + (Z.to_nat j - Z.to_nat start))%nat
      with (Z.to_nat j) in Hno by lia.
    exact Hno.
Qed.

Lemma slice_inside s a b :
  0 <= a -> a <= b -> b <= Py.len s ->
  Py.slice s a b = Py.substring (Z.to_nat a) (Z.to_nat (b - a)) s.
Proof.
  intros Ha Hab Hb. unfold Py.slice, Py.clamp_index.
  destruct (Z.ltb_spec a 0); [lia|]. destruct (Z.ltb_spec b 0); [lia|].
  now rewrite !Z.min_l by lia.
Qed.

Lemma occurs_at_stands text term i :
  occurs_at text term i <-> stands_at (Py.lower text) (Py.lower term) i.
Proof.
  unfold occurs_at, stands_at.
  split; intros (Hi & Hfit & E); repeat split; try assumption.
  - rewrite slice_inside in E by (unfold Py.len in *; lia).
    replace (Z.to_nat (i + Py.len (Py.lower term) - i))
      with (length (Py.lower term)) in E by (unfold Py.len; lia).
    exact E.
  - rewrite slice_inside by (unfold Py.len in *; lia).
    replace (Z.to_nat (i + Py.len (Py.lower term) - i))
      with (length (Py.lower term)) by (unfold Py.len; lia).
    exact E.
Qed.

Lemma len_pos s : s <> [] -> 1 <= Py.len s.
Proof. destruct s; [congruence|]. unfold Py.len. cbn [length]. lia. Qed.

Lemma match_indices_scan ltext lterm fuel start :
  lterm <> [] -> 0 <= start ->
  (Z.to_nat (Py.len ltext - start) < fuel)%nat ->
  exists l, match_indices fuel ltext lterm start = Some l
            /\ scan ltext lterm (Py.len lterm) start l.
Proof.
  intros Hne. pose proof (len_pos _ Hne) as Hpos. revert start.
  induction fuel as [|fuel IH]; intros start Hs Hf; [lia|].
  cbn [match_indices].
  destruct (Z.eqb_spec (Py.find ltext lterm start) (-1)) as [E|E].
  - exists []. split; [reflexivity|]. constructor. intros j Hj (_ & _ & Hocc).
    revert Hocc. eapply find_miss; eauto.
  - destruct (find_hit _ _ _ _ Hs eq_refl E) as (Hle & Hfit & Hsub & Hmin).
    set (idx := Py.find ltext lterm start) in *.
    destruct (IH (idx + Py.len lterm)) as (l & Hl & Hscan); [lia | lia |].
    rewrite Hl. exists (idx :: l). split; [reflexivity|].
    constructor; try assumption.
    + repeat split; [lia | lia | exact Hsub].
    + intros j Hj (_ & _ & Hocc). revert Hocc. apply Hmin. exact Hj.
Qed.

Lemma match_indices_det f1 f2 lt lterm start l1 l2 :
  match_indices f1 lt lterm start = Some l1 ->
  match_indices f2 lt lterm start = Some l2 -> l1 = l2.
Proof.
  revert f2 start l1 l2.
  induction f1 as [|f1 IH]; intros [|f2] start l1 l2; simpl; try discriminate.
  destruct (Py.find lt lterm start =? -1); [congruence|].
  destruct (match_indices f1 _ _ _) as [a|] eqn:E1; [|discriminate].
  destruct (match_indices f2 _ _ _) as [b|] eqn:E2; [|discriminate].
  intros H1 H2. inversion H1; inversion H2; subst.
  f_equal. eapply IH; eauto.
Qed.

Lemma search_loop_indices fuel text ltext term lterm start results :
  search_loop fuel text ltext term lterm start results =
  match match_indices fuel ltext lterm start with
  | None => None
  | Some l =>
      Some (foldl (fun r s => dd_append term s r) results
              (map (snippet_at text term) l))
  end.
Proof.
  revert start results.
  induction fuel as [|fuel IH]; intros start results; simpl; [reflexivity|].
  destruct (Py.find ltext lterm start =? -1); [reflexivity|].
  rewrite IH. now destruct (match_indices fuel _ _ _).
Qed.

Lemma foldl_dd_append term (snips : list str) results :
  foldl (fun r s => dd_append term s r) results snips =
  match snips with
  | [] => results
  | _ => <[term := default [] (results !! term) ++ snips]> results
  end.
Proof.
  revert results. induction snips as [|s snips IH]; intros results;
    [reflexivity|].
  cbn [foldl]. rewrite IH. destruct snips as [|s' snips]; [reflexivity|].
  unfold dd_append. rewrite lookup_insert_eq, insert_insert_eq.
  cbn [default id]. now rewrite <- (app_assoc _ [s]).
Qed.

Lemma scan_nonneg ltext lterm advance start l :
  0 <= start -> 0 <= advance ->
  scan ltext lterm advance start l -> Forall (fun i => 0 <= i) l.
Proof.
  intros Hs Ha Hsc. induction Hsc as [|start i rest Hle Hocc _ _ IH];
    constructor; [lia|].
  apply IH. lia.
Qed.

Lemma snippet_at_window text term i :
  0 <= i -> snippet_at text term i = window text term i.
Proof.
  intros Hi. unfold snippet_at, window, Py.slice, Py.clamp_index. cbn zeta.
  destruct (Z.ltb_spec (Z.max 0 (i - 60)) 0); [lia|].
  destruct (Z.ltb_spec (Z.min (Py.len text) (i + Py.len term + 60)) 0) as [Hneg|_].
  { unfold Py.len in *. lia. }
  f_equal.
  destruct (Z.le_gt_cases (Z.max 0 (i - 60)) (Py.len text)) as [Hin|Hout].
  - rewrite (Z.min_l (Z.max 0 (i - 60))) by lia.
    now rewrite (Z.min_l (Z.min _ _) (Py.len text)) by lia.
  - replace (Z.to_nat (Z.min (Z.min (Py.len text) (i + Py.len term + 60))
               (Py.len text) - Z.min (Z.max 0 (i - 60)) (Py.len text)))
      with 0%nat by lia.
    replace (Z.to_nat (Z.min (Py.len text) (i + Py.len term + 60)
               - Z.max 0 (i - 60))) with 0%nat by lia.
    now rewrite !substring_zero.
Qed.

Lemma search_loop_sound fuel text term start results r :
  0 <= start -> sound text results ->
  search_loop fuel text (Py.lower text) term (Py.lower term) start results
    = Some r ->
  sound text r.
Proof.
  revert start results.
  induction fuel as [|fuel IH]; intros start results Hs Hsound;
    [discriminate|].
  cbn [search_loop].
  destruct (Z.eqb_spec (Py.find (Py.lower text) (Py.lower term) start) (-1))
    as [E|E]; [intros Hr; inversion Hr; subst; exact Hsound|].
  destruct (find_hit _ _ _ _ Hs eq_refl E) as (Hle & Hfit & Hsub & _).
  set (idx := Py.find (Py.lower text) (Py.lower term) start) in *.
  apply IH; [unfold Py.len in *; lia|].
  intros t l. unfold dd_append.
  destruct (decide (term = t)) as [->|Hne].
  - rewrite lookup_insert_eq. intros Hr; inversion Hr; subst. split.
    + intros Happ. apply app_eq_nil in Happ as [_ Hnil]. discriminate.
    + exists idx. apply occurs_at_stands. repeat split; [lia | lia | exact Hsub].
  - rewrite lookup_insert_ne by assumption. apply Hsound.
Qed.

Lemma search_terms_sound fuel text terms results r :
  sound text results ->
  search_terms fuel text (Py.lower text) terms results = Some r ->
  sound text r.
Proof.
  revert results. induction terms as [|term terms IH]; intros results Hsound;
    cbn [search_terms]; [intros Hr; inversion Hr; subst; exact Hsound|].
  destruct (search_loop _ _ _ _ _ _ _) as [r'|] eqn:E; [|discriminate].
  apply IH. eapply search_loop_sound; eauto. lia.
Qed.

Lemma search_loop_empty_term fuel text ltext term start results :
  0 <= start <= Py.len ltext ->
  search_loop fuel text ltext term [] start results = None.
Proof.
  intros Hs. revert results.
  induction fuel as [|fuel IH]; intros results; [reflexivity|].
  cbn [search_loop].
  assert (E : Py.find ltext [] start = start).
  { unfold Py.find. destruct (Z.ltb_spec start 0); [lia|].
    destruct (Z.ltb_spec (Py.len ltext) start); [lia|].
    rewrite index_of_nil. lia. }
  rewrite E. destruct (Z.eqb_spec start (-1)); [lia|].
  change (Py.len []) with 0. rewrite Z.add_0_r. apply IH.
Qed.

Lemma search_terms_empty_term fuel text ltext terms results :
  [] ∈ terms ->
  search_terms fuel text ltext terms results = None.
Proof.
  revert results. induction terms as [|term terms IH]; intros results Hin.
  - inversion Hin.
  - cbn [search_terms]. apply elem_of_cons in Hin as [<-|Hin].
    + rewrite lower_nil, search_loop_empty_term; [reflexivity|].
      unfold Py.len. lia.
    + destruct (search_loop _ _ _ _ _ _ _); [apply IH; exact Hin|reflexivity].
Qed.

Lemma search_terms_total text terms results :
  Forall (fun t => t <> []) terms ->
  exists r, search_terms (S (Z.to_nat (Py.len (Py.lower text)))) text
              (Py.lower text) terms results = Some r.
Proof.
  intros Hall. revert results.
  induction Hall as [|term terms Hne _ IH]; intros results;
    cbn [search_terms]; [eauto|].
  rewrite search_loop_indices.
  assert (Hlne : Py.lower term <> []) by now apply Py.lower_nonempty.
  destruct (match_indices_scan (Py.lower text) (Py.lower term)
              (S (Z.to_nat (Py.len (Py.lower text)))) 0 Hlne)
    as (l & -> & _); [lia | lia |].
  apply IH.
Qed.

End Matcher.

Section MatcherResult.

Context `{Py.Unicode}.

Implicit Types (text term : str) (results : gmap str (list str)).

Lemma search_loop_lookup fuel text ltext term lterm start results r :
  search_loop fuel text ltext term lterm start results = Some r ->
  exists l,
    match_indices fuel ltext lterm start = Some l
    /\ (forall k, k <> term -> r !! k = results !! k)
    /\ r !! term
       = match map (snippet_at text term) l with
         | [] => results !! term
         | snips => Some (default [] (results !! term) ++ snips)
         end.
Proof.
  rewrite search_loop_indices.
  destruct (match_indices fuel ltext lterm start) as [l|]; [|discriminate].
  intros E. inversion E; subst. exists l. split; [reflexivity|].
  rewrite foldl_dd_append. destruct (map (snippet_at text term) l) as [|s snips].
  - auto.
  - split.
    + intros k Hk. now rewrite lookup_insert_ne.
    + now rewrite lookup_insert_eq.
Qed.

Lemma search_terms_lookup fuel text ltext terms :
  NoDup terms ->
  forall results r,
    search_terms fuel text ltext terms results = Some r ->
    forall k,
      ((k ∉ terms) -> r !! k = results !! k)
      /\ (k ∈ terms ->
          exists l,
            match_indices fuel ltext (Py.lower k) 0 = Some l
            /\ r !! k
               = match map (snippet_at text k) l with
                 | [] => results !! k
                 | snips => Some (default [] (results !! k) ++ snips)
                 end).
Proof.
  induction 1 as [|term terms Hnotin Hnd IH]; intros results r E k;
    cbn [search_terms] in E.
  - inversion E; subst. split; [reflexivity|]. intros Hk. inversion Hk.
  - destruct (search_loop _ _ _ _ _ _ _) as [r1|] eqn:E1; [|discriminate].
    apply search_loop_lookup in E1 as (l & Hl & Hother & Hterm).
    destruct (IH _ _ E k) as (Hout & Hin). split.
    + intros Hk. rewrite Hout by (intros ?; apply Hk, elem_of_cons; auto).
      apply Hother. intros ->. apply Hk, elem_of_cons. auto.
    + intros Hk. apply elem_of_cons in Hk as [->|Hk].
      * exists l. split; [exact Hl|]. now rewrite Hout.
      * destruct (Hin Hk) as (l' & Hl' & Hr). exists l'. split; [exact Hl'|].
        rewrite Hr, Hother; [reflexivity|]. intros ->. contradiction.
Qed.

(** What the matcher does, said in the lowercase view: for every term of a
    list without a repeat, the indices are those of the left-to-right scan
    of the lowercase form of the text for the lowercase form of the term,
    which resumes after a match at the index plus the length of the
    lowercase form of the term, and the snippets are the windows cut from
    the text at these indices. *)
Lemma matcher_follows_lowercase_scan fuel text terms r term :
  NoDup terms ->
  search_terms_in_text fuel text terms = Some r ->
  term ∈ terms ->
  exists idxs,
    scan (Py.lower text) (Py.lower term) (Py.len (Py.lower term)) 0 idxs
    /\ r !! term = one_term term (map (window text term) idxs) !! term.
Proof.
  unfold search_terms_in_text. intros Hnd Hrun Hin.
  assert (Hne : term <> []).
  { intros ->. rewrite search_terms_empty_term in Hrun by exact Hin.
    discriminate. }
  assert (Hlne : Py.lower term <> []) by now apply Py.lower_nonempty.
  destruct (search_terms_lookup fuel text (Py.lower text) terms Hnd _ _ Hrun term)
    as (_ & Hl).
  destruct (Hl Hin) as (l & Hidx & Hr).
  destruct (match_indices_scan (Py.lower text) (Py.lower term)
              (S (Z.to_nat (Py.len (Py.lower text)))) 0 Hlne)
    as (l' & Hl' & Hscan); [lia | lia |].
  assert (l' = l) as -> by (eapply match_indices_det; eauto).
  exists l. split; [exact Hscan|]. rewrite Hr.
  assert (Hmap : map (snippet_at text term) l = map (window text term) l).
  { apply map_ext_Forall.
    eapply Forall_impl;
      [eapply scan_nonneg; [| |exact Hscan]; unfold Py.len; lia|].
    intros i Hi. now apply snippet_at_window. }
  rewrite Hmap. unfold one_term.
  destruct (map (window text term) l) as [|s snips];
    [now rewrite !lookup_empty|].
  now rewrite lookup_empty, lookup_singleton_eq.
Qed.

End MatcherResult.

(** The end-to-end scenario of the specification, run. *)
Example matcher_template_brand :
  @search_terms_in_text latin 5 "Visit TemplateBrand today" ["TemplateBrand"]
  = Some {[ "TemplateBrand" := ["Visit TemplateBrand today"] ]}.
Proof. vm_compute. reflexivity. Qed.

(** Letters outside the ASCII range match without regard to case too. *)
Example matcher_accented :
  @search_terms_in_text latin 5 "Visit CAFÉ today" ["café"]
  = Some {[ "café" := ["Visit CAFÉ today"] ]}.
Proof. vm_compute. reflexivity. Qed.

(** Two adjacent matches are both found; a match that starts inside the
    span of the one before is not. *)
Example matcher_adjacent :
  match_indices 5 "abab" "ab" 0 = Some [0; 2]
  /\ match_indices 5 "aaa" "aa" 0 = Some [0].
Proof. split; vm_compute; reflexivity. Qed.

(** C4. The matcher takes the index of a match in the lowercase form of the
    text and cuts the snippet from the text itself at that index. The two
    do not line up when lowering changes the length of what stands before
    the match: in [dotted_text] the word [brand] stands at index 70, the
    window of the specification holds 60 letters on each side of it, and
    the snippet returned is the window at index 71, with 59 letters before
    the word and 61 after it. After seventy capitals with a dot the snippet
    is empty and does not show the match at all. *)
Lemma matcher_window_shifted_by_dotted_capital :
  @search_terms_in_text latin 5 dotted_text ["brand"]
  = Some {[ "brand" :=
              [ replicate 59 120%N ++ "brand" ++ replicate 61 121%N ] ]}
  /\ Py.substring 70 5 dotted_text = "brand"
  /\ window dotted_text "brand" 70
     = replicate 60 120%N ++ "brand" ++ replicate 60 121%N
  /\ Py.find (@Py.lower latin dotted_text) (@Py.lower latin "brand") 0 = 71
  /\ @search_terms_in_text latin 5 dotted_run ["brand"]
     = Some {[ "brand" := [ "" ] ]}
  /\ window dotted_run "brand" 70 = replicate 60 304%N ++ "brand".
Proof. repeat split; vm_compute; reflexivity. Qed.

(** C9. In the mapping the matcher returns, a term that has no
    case-insensitive occurrence in the text has no key, and no key holds an
    empty list of snippets. *)
Theorem matcher_absent_without_occurrence `{Py.Unicode}
    (fuel : nat) (text : str) (terms : list str)
    (r : gmap str (list str)) (term : str) :
  search_terms_in_text fuel text terms = Some r ->
  ((forall i, ~ occurs_at text term i) -> r !! term = None)
  /\ r !! term <> Some [].
Proof.
  intros Hrun.
  assert (Hsound : sound text r).
  { eapply search_terms_sound; [|exact Hrun]. intros t l Hl.
    rewrite lookup_empty in Hl. discriminate. }
  split.
  - intros Hno. destruct (r !! term) as [l|] eqn:E; [|reflexivity].
    destruct (Hsound _ _ E) as (_ & i & Hi). now apply Hno in Hi.
  - intros E. destruct (Hsound _ _ E) as (Hnil & _). now apply Hnil.
Qed.

Lemma matcher_absent_without_occurrence_witness :
  @search_terms_in_text latin 5 "Visit TemplateBrand today"
    ["TemplateBrand"; "Old"]
  = Some {[ "TemplateBrand" := ["Visit TemplateBrand today"] ]}
  /\ (((forall i, ~ @occurs_at latin "Visit TemplateBrand today" "Old" i) ->
       ({[ "TemplateBrand" := ["Visit TemplateBrand today"] ]}
          : gmap str (list str)) !! ("Old" : str) = None)
      /\ ({[ "TemplateBrand" := ["Visit TemplateBrand today"] ]}
            : gmap str (list str)) !! ("Old" : str) <> Some []).
Proof.
  split; [vm_compute; reflexivity|].
  apply (@matcher_absent_without_occurrence latin 5
           "Visit TemplateBrand today" ["TemplateBrand"; "Old"]).
  vm_compute. reflexivity.
Defined.

(** C10. The matcher returns, given enough fuel, exactly when no term of the
    list is the empty string: with every term non-empty, fuel above the
    length of the lowercase form of the text is enough; with an empty term
    in the list no amount of fuel is, because the search of that term
    resumes where it started. *)
Theorem matcher_terminates_iff_terms_nonempty `{Py.Unicode}
    (text : str) (terms : list str) :
  (exists fuel r, search_terms_in_text fuel text terms = Some r)
  <-> Forall (fun t => t <> []) terms.
Proof.
  split.
  - intros (fuel & r & Hrun). apply Forall_forall. intros t Hin ->.
    unfold search_terms_in_text in Hrun.
    rewrite search_terms_empty_term in Hrun; [discriminate | exact Hin].
  - intros Hall. exists (S (Z.to_nat (Py.len (Py.lower text)))).
    apply search_terms_total. exact Hall.
Qed.

(** With an empty term the loop does not leave: the search starts again at
    the index it started from. *)
Example matcher_empty_term_diverges `{Py.Unicode} (fuel : nat) :
  search_terms_in_text fuel "abc" ["b"; ""] = None.
Proof.
  unfold search_terms_in_text. apply search_terms_empty_term.
  apply elem_of_cons. right. apply elem_of_cons. now left.
Qed.

(** ** URL filter *)

(** On an address of the ASCII range the filter does not depend on the
    case tables. *)
Example should_skip_url_runs `{Py.Unicode} :
  should_skip_url "https://site.com/assets/logo.PNG" = true
  /\ should_skip_url "https://site.com/about" = false
  /\ should_skip_url "https://site.com/blog/node.js-tips" = true.
Proof.
  unfold should_skip_url. rewrite !Py.lower_ascii by reflexivity.
  vm_compute. repeat split; reflexivity.
Qed.

(** ** Fetcher *)

Example fetch_html_runs :
  let W := table_web
    [ ("https://example.com/", ok_html "<p>hello</p>");
      ("https://example.com/feed", ok_xml "<rss/>");
      ("https://example.com/gone", not_found);
      ("https://example.com/slow", Raise Timeout) ] [] in
  fetch_html "https://example.com/" = Ret (Some "<p>hello</p>")
  /\ fetch_html "https://example.com/feed" = Ret None
  /\ fetch_html "https://example.com/gone" = Ret None
  /\ fetch_html "https://example.com/slow" = Ret None
  /\ fetch_html "https://example.com/down" = Ret None.
Proof. vm_compute. repeat split; reflexivity. Qed.

(** C5. [fetch_html] returns a body exactly when the request answers with
    status 200 and a content type that contains [text/html], and the body
    is then that of the answer; with any other status or content type, and
    when the request raises a [RequestException] (a connection error and a
    timeout are two), it returns the absent value; it raises nothing but
    what the request raised outside that class. *)
Theorem fetch_html_body_or_absent `{Web} (url : str) :
  (forall body,
     fetch_html url = Ret (Some body) <->
     exists resp, http_get url = Ret resp /\ status_code resp = 200
       /\ Py.contains "text/html" (default "" (content_type resp)) = true
       /\ body = text resp)
  /\ (forall resp, http_get url = Ret resp ->
        status_code resp <> 200
        \/ Py.contains "text/html" (default "" (content_type resp)) = false ->
        fetch_html url = Ret None)
  /\ (http_get url = Raise ConnectionError -> fetch_html url = Ret None)
  /\ (http_get url = Raise Timeout -> fetch_html url = Ret None)
  /\ (forall e, http_get url = Raise e -> is_request_exception e = true ->
        fetch_html url = Ret None)
  /\ (forall e, fetch_html url = Raise e ->
        http_get url = Raise e /\ is_request_exception e = false).
Proof.
  unfold fetch_html.
  destruct (http_get url) as [resp|e] eqn:Hget.
  - assert (Hcase :
      (status_code resp = 200
       /\ Py.contains "text/html" (default "" (content_type resp)) = true
       /\ (if negb (status_code resp =? 200) then Ret None
           else if negb (Py.contains "text/html"
                           (default "" (content_type resp)))
                then Ret None else Ret (Some (text resp)))
          = Ret (Some (text resp)))
      \/ ((status_code resp <> 200
           \/ Py.contains "text/html" (default "" (content_type resp)) = false)
          /\ (if negb (status_code resp =? 200) then Ret None
              else if negb (Py.contains "text/html"
                              (default "" (content_type resp)))
                   then Ret None else Ret (Some (text resp)))
             = Ret None)).
    { destruct (Z.eqb_spec (status_code resp) 200) as [Hs|Hs]; cbn [negb];
        [|right; split; [left; exact Hs | reflexivity]].
      destruct (Py.contains "text/html" (default "" (content_type resp)));
        cbn [negb]; [left; auto | right; split; [right|]; reflexivity]. }
    destruct Hcase as [(Hs & Hc & ->)|(Hbad & ->)].
    + split; [|split; [|split; [|split; [|split]]]].
      * intros body. split.
        -- intros E. inversion E; subst. exists resp. auto.
        -- intros (r & E & _ & _ & ->). inversion E; subst. reflexivity.
      * intros r E [Hn|Hn]; inversion E; subst; congruence.
      * discriminate.
      * discriminate.
      * discriminate.
      * discriminate.
    + split; [|split; [|split; [|split; [|split]]]].
      * intros body. split; [discriminate|].
        intros (r & E & Hs & Hc & _). inversion E; subst.
        destruct Hbad; congruence.
      * reflexivity.
      * discriminate.
      * discriminate.
      * discriminate.
      * discriminate.
  - split; [|split; [|split; [|split; [|split]]]].
    + intros body. split.
      * destruct (is_request_exception e); discriminate.
      * intros (r & E & _). discriminate.
    + discriminate.
    + intros E. inversion E; subst. reflexivity.
    + intros E. inversion E; subst. reflexivity.
    + intros e' E He. inversion E; subst. rewrite He. reflexivity.
    + intros e'. destruct (is_request_exception e) eqn:He; [discriminate|].
      intros E. inversion E; subst. auto.
Qed.

(** ** Text extractor *)

Section Extractor.

Lemma node_ind' (P : node -> Prop) :
  (forall s, P (Text s)) ->
  (forall s, P (CData s)) ->
  (forall s, P (Comment s)) ->
  (forall name attrs children, Forall P children ->
     P (Tag name attrs children)) ->
  forall n, P n.
Proof.
  intros HT HD HC HG. fix IH 1. intros [s|s|s|name attrs children].
  - apply HT.
  - apply HD.
  - apply HC.
  - apply HG. induction children as [|c children IHc]; constructor.
    + apply IH.
    + apply IHc.
Qed.

Lemma collapse_run_no_space s : starts_with_space (collapse_ws true s) = false.
Proof.
  induction s as [|c s IH]; [reflexivity|]. cbn [collapse_ws].
  destruct (Py.isspace c) eqn:E; [exact IH|]. exact E.
Qed.

Lemma isspace_space : Py.isspace 32%N = true.
Proof. reflexivity. Qed.

Lemma collapse_single_spaced b s : single_spaced (collapse_ws b s) = true.
Proof.
  revert b. induction s as [|c s IH]; intros b; [reflexivity|].
  cbn [collapse_ws]. destruct (Py.isspace c) eqn:E.
  - destruct b; [apply IH|]. cbn [single_spaced].
    rewrite isspace_space, collapse_run_no_space, IH. reflexivity.
  - cbn [single_spaced]. rewrite E, IH. reflexivity.
Qed.

Lemma single_spaced_tail c s :
  single_spaced (c :: s) = true -> single_spaced s = true.
Proof. cbn [single_spaced]. intros E. apply andb_prop in E. tauto. Qed.

Lemma lstrip_single_spaced s :
  single_spaced s = true -> single_spaced (Py.lstrip s) = true.
Proof.
  induction s as [|c s IH]; [reflexivity|]. intros E. cbn [Py.lstrip].
  destruct (Py.isspace c); [|exact E].
  apply IH. eapply single_spaced_tail; eauto.
Qed.

Lemma lstrip_no_space s : starts_with_space (Py.lstrip s) = false.
Proof.
  induction s as [|c s IH]; [reflexivity|]. cbn [Py.lstrip].
  destruct (Py.isspace c) eqn:E; [exact IH | exact E].
Qed.

Lemma lstrip_id s : starts_with_space s = false -> Py.lstrip s = s.
Proof. destruct s as [|c s]; [reflexivity|]. cbn. now intros ->. Qed.

Lemma rstrip_head s a r :
  Py.rstrip s = a :: r -> exists t, s = a :: t.
Proof.
  destruct s as [|c s]; [discriminate|]. cbn [Py.rstrip].
  destruct (Py.rstrip s).
  - destruct (Py.isspace c); [discriminate|].
    intros E; inversion E; subst; eauto.
  - intros E; inversion E; subst; eauto.
Qed.

Lemma rstrip_no_leading_space s :
  starts_with_space s = false -> starts_with_space (Py.rstrip s) = false.
Proof.
  intros E0. destruct (Py.rstrip s) as [|a r] eqn:E; [reflexivity|].
  apply rstrip_head in E as [t ->]. exact E0.
Qed.

Lemma rstrip_single_spaced s :
  single_spaced s = true -> single_spaced (Py.rstrip s) = true.
Proof.
  induction s as [|c s IH]; [reflexivity|]. intros E0.
  pose proof (single_spaced_tail _ _ E0) as Ht. specialize (IH Ht).
  cbn [Py.rstrip]. destruct (Py.rstrip s) as [|a r] eqn:E.
  - destruct (Py.isspace c) eqn:Ec; [reflexivity|].
    cbn [single_spaced]. rewrite Ec. reflexivity.
  - cbn [single_spaced] in E0 |- *. apply andb_prop in E0 as [Hc _].
    apply rstrip_head in E as [t ->].
    cbn [single_spaced] in IH. rewrite IH, andb_true_r. exact Hc.
Qed.

Lemma rstrip_no_trailing_space s : ends_with_space (Py.rstrip s) = false.
Proof.
  induction s as [|c s IH]; [reflexivity|]. cbn [Py.rstrip].
  destruct (Py.rstrip s) as [|a r] eqn:E.
  - destruct (Py.isspace c) eqn:Ec; [reflexivity|]. cbn. exact Ec.
  - exact IH.
Qed.

(** *** The words of the text *)

Lemma words_nonempty s : Forall (fun w => w <> []) (words s).
Proof.
  induction s as [|c s IH]; [constructor|]. cbn [words].
  destruct (Py.isspace c); [exact IH|].
  destruct (starts_with_space s); [constructor; [discriminate | exact IH]|].
  destruct (words s) as [|w ws]; [repeat constructor; discriminate|].
  inversion IH; subst. constructor; [discriminate | assumption].
Qed.

Lemma collapse_lstrip s : Py.lstrip (collapse_ws false s) = collapse_ws true s.
Proof.
  destruct s as [|c s]; [reflexivity|]. cbn [collapse_ws].
  destruct (Py.isspace c) eqn:E; cbn [Py.lstrip].
  - rewrite isspace_space. apply lstrip_id, collapse_run_no_space.
  - now rewrite E.
Qed.

Lemma rstrip_cons c s :
  Py.rstrip (c :: s)
  = match Py.rstrip s with
    | [] => if Py.isspace c then [] else [c]
    | r => c :: r
    end.
Proof. reflexivity. Qed.

Lemma join_cons (sep w : str) (ws : list str) :
  Py.join sep (w :: ws)
  = w ++ match ws with [] => [] | _ => sep ++ Py.join sep ws end.
Proof. reflexivity. Qed.

(** After the trim on the right the collapsed text is the words joined by
    single spaces, behind one space when the text started in a run of
    whitespace that was not yet known to be one. *)
Lemma rstrip_collapse s :
  Py.rstrip (collapse_ws true s) = Py.join [32%N] (words s)
  /\ Py.rstrip (collapse_ws false s)
     = if starts_with_space s
       then match Py.join [32%N] (words s) with
            | [] => []
            | r => 32%N :: r
            end
       else Py.join [32%N] (words s).
Proof.
  induction s as [|c s (IHa & IHb)]; [split; reflexivity|].
  cbn [collapse_ws words starts_with_space].
  destruct (Py.isspace c) eqn:Ec.
  - split; [exact IHa|]. rewrite rstrip_cons, IHa, isspace_space.
    reflexivity.
  - assert (G : Py.rstrip (c :: collapse_ws false s)
                = Py.join [32%N]
                    (if starts_with_space s then [c] :: words s
                     else match words s with
                          | w :: ws => (c :: w) :: ws
                          | [] => [[c]]
                          end)).
    { rewrite rstrip_cons, IHb, Ec. pose proof (words_nonempty s) as Hne.
      destruct (starts_with_space s).
      - destruct (words s) as [|w ws]; [reflexivity|].
        inversion Hne; subst. destruct w as [|d w]; [congruence|].
        reflexivity.
      - destruct (words s) as [|w ws]; [reflexivity|].
        inversion Hne; subst. destruct w as [|d w]; [congruence|].
        reflexivity. }
    split; exact G.
Qed.

Lemma strip_collapse_words s :
  Py.strip (collapse_ws false s) = Py.join " " (words s).
Proof.
  unfold Py.strip. rewrite collapse_lstrip. apply rstrip_collapse.
Qed.

(** *** What is shown *)

Lemma decompose_visible n :
  forall below,
    flat_map (all_strings HTML_STRING_CONTAINERS below)
      (decompose_node HIDDEN n)
    = visible_strings below n.
Proof.
  induction n as [s|s|s|name attrs children IH] using node_ind';
    intros below; cbn [decompose_node visible_strings flat_map all_strings];
    try (now rewrite app_nil_r).
  destruct (bool_decide (name ∈ HIDDEN)); [reflexivity|].
  cbn [flat_map all_strings]. rewrite app_nil_r.
  generalize (below || bool_decide (name ∈ HTML_STRING_CONTAINERS)).
  intros b. induction IH as [|c cs Hc _ IHcs]; [reflexivity|].
  cbn [flat_map]. rewrite flat_map_app, Hc, IHcs. reflexivity.
Qed.

Lemma decompose_all_visible soup :
  flat_map (all_strings HTML_STRING_CONTAINERS false)
    (decompose_all HIDDEN soup)
  = flat_map (visible_strings false) soup.
Proof.
  unfold decompose_all. induction soup as [|n soup IH]; [reflexivity|].
  cbn [flat_map]. now rewrite flat_map_app, decompose_visible, IH.
Qed.

Lemma visible_same n n' :
  same_outside HIDDEN n n' ->
  forall below, visible_strings below n = visible_strings below n'.
Proof.
  revert n'. induction n as [s|s|s|name attrs children IH] using node_ind';
    intros n' Hsame below; inversion Hsame; subst; try reflexivity.
  - cbn [visible_strings]. now rewrite !bool_decide_eq_true_2 by assumption.
  - cbn [visible_strings].
    destruct (bool_decide (name ∈ HIDDEN)); [reflexivity|].
    generalize (below || bool_decide (name ∈ HTML_STRING_CONTAINERS)).
    intros b. clear Hsame.
    match goal with
    | Hc : Forall2 _ children _ |- _ =>
        revert IH; induction Hc as [|c c' cs cs' Hcc _ IHcs]; intros IH
    end; [reflexivity|].
    inversion IH; subst. cbn [flat_map]. f_equal; auto.
Qed.

Lemma visible_all_same soup soup' :
  Forall2 (same_outside HIDDEN) soup soup' ->
  flat_map (visible_strings false) soup
  = flat_map (visible_strings false) soup'.
Proof.
  induction 1 as [|n n' soup soup' Hn _ IH]; [reflexivity|].
  cbn [flat_map]. f_equal; [now apply visible_same | exact IH].
Qed.

Lemma visible_text_words soup :
  visible_text soup
  = Py.join " "
      (words (Py.join " " (flat_map (visible_strings false) soup))).
Proof.
  unfold visible_text, get_text.
  now rewrite strip_collapse_words, decompose_all_visible.
Qed.

End Extractor.

Example extract_visible_text_runs :
  visible_text
    [ Tag "html" []
        [ Tag "head" [] [ Tag "style" [] [Text "p { color: red }"] ];
          Tag "body" []
            [ Tag "p" [] [Text "  Visit"; Tag "b" [] [Text "TemplateBrand"]];
              Tag "script" [] [Text "var brand = 1;"];
              Text [10%N; 9%N; 116%N; 111%N; 100%N; 97%N; 121%N; 32%N];
              Tag "noscript" [] [ Tag "p" [] [Text "enable scripts"] ] ] ] ]
  = "Visit TemplateBrand today".
Proof. vm_compute. reflexivity. Qed.

(** A no-break space (U+00A0) and an em space (U+2003) are whitespace; what
    stands in a comment is not shown, and of what stands in a template only
    a CDATA section is. *)
Example extract_visible_text_unicode :
  visible_text
    [ Tag "p" [] [Text [160%N; 79%N; 108%N; 100%N; 8195%N; 160%N];
                  Text "Brand"; Comment "not this";
                  Tag "template" []
                    [ Tag "p" [] [Text "nor this"; CData "here"] ] ] ]
  = "Old Brand here".
Proof. vm_compute. reflexivity. Qed.

(** What stands in a script element does not reach the text. *)
Example visible_text_ignores_script :
  visible_text [ Tag "p" [] [Text "Old Brand"];
                 Tag "script" [] [Text "var b = 'Old Brand';"] ]
  = visible_text [ Tag "p" [] [Text "Old Brand"]; Tag "script" [] [] ].
Proof. vm_compute. reflexivity. Qed.

(** C8. For every HTML input the text extracted is the words of the strings
    that are shown, joined by single spaces: the strings shown are those of
    the document that stand below no script, style or noscript element
    (and, but for CDATA sections, below no string container), they are
    joined by a space, and the words are the maximal runs of characters
    that are not whitespace. So every run of whitespace, with tabs, line
    breaks and the spaces outside the ASCII range, has become one space, no
    whitespace stands at either end, and two inputs whose documents differ
    only below script, style or noscript elements give the same text. *)
Theorem extract_visible_text_normalized `{Web} (html : str) :
  extract_visible_text html
  = Py.join " "
      (words
         (Py.join " " (flat_map (visible_strings false) (html_parser html))))
  /\ single_spaced (extract_visible_text html) = true
  /\ starts_with_space (extract_visible_text html) = false
  /\ ends_with_space (extract_visible_text html) = false
  /\ (forall html',
        Forall2 (same_outside HIDDEN) (html_parser html) (html_parser html') ->
        extract_visible_text html = extract_visible_text html').
Proof.
  unfold extract_visible_text. split; [apply visible_text_words|].
  unfold visible_text, Py.strip. repeat split.
  - apply rstrip_single_spaced, lstrip_single_spaced, collapse_single_spaced.
  - apply rstrip_no_leading_space, lstrip_no_space.
  - apply rstrip_no_trailing_space.
  - intros html' Hsame. unfold get_text.
    now rewrite !decompose_all_visible, (visible_all_same _ _ Hsame).
Qed.

(** ** Sitemap resolver *)

Section Sitemap.

Context `{Web}.

Lemma smtree_ind' (P : smtree -> Prop) :
  (forall url e, P (SmFailed url e)) ->
  (forall url pages, P (SmUrlset url pages)) ->
  (forall url children, Forall P children -> P (SmIndex url children)) ->
  forall t, P t.
Proof.
  intros HF HU HI. fix IH 1. intros [url e|url pages|url children].
  - apply HF.
  - apply HU.
  - apply HI. induction children as [|c children IHc]; constructor.
    + apply IH.
    + apply IHc.
Qed.

Lemma sitemap_body_failed resolve url e :
  read_sitemap url = Raise e ->
  sitemap_body resolve url
  = (∅, [ {| warned_url := url; warned_exn := e |} ]).
Proof. intros E. unfold sitemap_body. now rewrite E. Qed.

Lemma fold_urlset (tags : list node) (acc : gset str) :
  foldl (fun urls url_tag =>
           match loc_of url_tag with
           | None => urls
           | Some loc => urls ∪ {[ loc ]}
           end) acc tags
  = acc ∪ list_to_set (omap loc_of tags).
Proof.
  revert acc. induction tags as [|tag tags IH]; intros acc.
  - cbn. now rewrite (right_id_L ∅ (∪)).
  - cbn [foldl]. rewrite IH.
    change (omap loc_of (tag :: tags))
      with (match loc_of tag with
            | Some y => y :: omap loc_of tags
            | None => omap loc_of tags
            end).
    destruct (loc_of tag); [|reflexivity].
    rewrite list_to_set_cons. now rewrite (assoc_L (∪)).
Qed.

Lemma sitemap_body_urlset resolve url soup :
  read_sitemap url = Ret soup ->
  find_all (is_named "sitemap") soup = [] ->
  sitemap_body resolve url = (urlset_pages soup, []).
Proof.
  intros E Hno. unfold sitemap_body. rewrite E, Hno, fold_urlset.
  unfold urlset_pages. f_equal. set_solver.
Qed.

Lemma sitemap_body_index resolve url soup :
  read_sitemap url = Ret soup ->
  find_all (is_named "sitemap") soup <> [] ->
  sitemap_body resolve url
  = index_loop resolve url (find_all (is_named "sitemap") soup) ∅ [].
Proof.
  intros E Hsome. unfold sitemap_body. rewrite E.
  destruct (find_all (is_named "sitemap") soup) as [|tag tags] eqn:Et;
    [congruence | reflexivity].
Qed.

Lemma index_locs_cons tag tags :
  index_locs (tag :: tags)
  = match loc_of tag with
    | Some l => l :: index_locs tags
    | None => index_locs tags
    end.
Proof. reflexivity. Qed.

(** The loop over the entries when no call raises: every entry is
    resolved, in order. *)
Lemma index_loop_trees limit url tags :
  forall children,
    Forall2 sitemap_tree (index_locs tags) children ->
    Forall (fun c => forall u,
              sitemap_tree u c ->
              get_urls_from_sitemap limit u
              = Ret (tree_pages c, tree_warnings c)) children ->
    forall urls warnings,
      index_loop (get_urls_from_sitemap limit) url tags urls warnings
      = (urls ∪ foldr (fun c acc => tree_pages c ∪ acc) ∅ children,
         warnings ++ flat_map tree_warnings children).
Proof.
  induction tags as [|tag tags IH]; intros children Hch Hans urls warnings.
  - inversion Hch; subst. cbn. rewrite app_nil_r. f_equal. set_solver.
  - rewrite index_locs_cons in Hch. cbn [index_loop].
    destruct (loc_of tag) as [l|]; [|now apply IH].
    inversion Hch as [|? c ? cs Hc Hcs]; subst.
    inversion Hans as [|? ? Hhere Hrest]; subst.
    rewrite (Hhere _ Hc), (IH cs Hcs Hrest). cbn [foldr flat_map].
    rewrite <- app_assoc. f_equal. set_solver.
Qed.

Lemma depth_children c children :
  c ∈ children ->
  (S (tree_depth c)
   <= foldr (fun c d => Nat.max (S (tree_depth c)) d) 0 children)%nat.
Proof.
  induction children as [|c' children IH]; [intros Hin; inversion Hin|].
  intros Hin. cbn [foldr]. apply elem_of_cons in Hin as [->|Hin];
    [lia | specialize (IH Hin); lia].
Qed.

Lemma get_urls_of_tree t :
  forall url limit,
    sitemap_tree url t -> (tree_depth t < limit)%nat ->
    get_urls_from_sitemap limit url = Ret (tree_pages t, tree_warnings t).
Proof.
  induction t as [u e|u pages|u children IH] using smtree_ind';
    intros url [|limit] Ht Hd; try lia; inversion Ht; subst;
    cbn [get_urls_from_sitemap]; f_equal.
  - now apply sitemap_body_failed.
  - now apply sitemap_body_urlset.
  - rewrite (sitemap_body_index _ _ soup) by assumption.
    assert (Hans : Forall (fun c => forall v,
                      sitemap_tree v c ->
                      get_urls_from_sitemap limit v
                      = Ret (tree_pages c, tree_warnings c)) children).
    { apply Forall_forall. intros c Hc v Hv.
      apply (proj1 (Forall_forall _ _) IH c Hc); [exact Hv|].
      pose proof (depth_children c children Hc). cbn [tree_depth] in Hd. lia. }
    rewrite (index_loop_trees limit _ _ children) by assumption.
    cbn [tree_pages tree_warnings]. f_equal. set_solver.
Qed.

(** *** When the limit of the interpreter is met *)

Lemma index_loop_raise resolve e url tags :
  (forall l, resolve l = Raise e) ->
  index_locs tags <> [] ->
  forall urls warnings,
    index_loop resolve url tags urls warnings
    = (urls, warnings ++ [ {| warned_url := url; warned_exn := e |} ]).
Proof.
  intros Hr. induction tags as [|tag tags IH]; intros Hne urls warnings;
    [contradiction|].
  rewrite index_locs_cons in Hne. cbn [index_loop].
  destruct (loc_of tag) as [l|]; [now rewrite Hr | now apply IH].
Qed.

Lemma index_loop_keeps resolve url tags :
  (forall l, exists r, resolve l = Ret r) ->
  forall urls warnings urls' warnings',
    index_loop resolve url tags urls warnings = (urls', warnings') ->
    (forall w, w ∈ warnings -> w ∈ warnings')
    /\ forall l sub ws w,
         l ∈ index_locs tags -> resolve l = Ret (sub, ws) ->
         w ∈ ws -> w ∈ warnings'.
Proof.
  intros Hr. induction tags as [|tag tags IH];
    intros urls warnings urls' warnings' E.
  - cbn in E. inversion E; subst. split; [auto|].
    intros l sub ws w Hl. inversion Hl.
  - cbn [index_loop] in E. rewrite index_locs_cons.
    destruct (loc_of tag) as [l0|]; [|now apply IH in E].
    destruct (Hr l0) as ([sub0 ws0] & Hl0). rewrite Hl0 in E.
    apply IH in E as (Hold & Hnew). split.
    + intros w Hw. apply Hold, elem_of_app. now left.
    + intros l sub ws w Hl Hres Hw. apply elem_of_cons in Hl as [->|Hl].
      * rewrite Hl0 in Hres. inversion Hres; subst.
        apply Hold, elem_of_app. now right.
      * eapply Hnew; eauto.
Qed.

Lemma chain_rtc n u v : chain n u v -> rtc entry u v.
Proof.
  revert u. induction n as [|n IH]; intros u; cbn [chain].
  - intros ->. apply rtc_refl.
  - intros (w & Hw & Hc). eapply rtc_l; eauto.
Qed.

(** A chain of [n] entries that ends at an index with an entry is followed
    to its end by a call that may nest [n + 1] deep, and the last index is
    where the limit is met. *)
Lemma chain_meets_limit n :
  forall u v,
    chain n u v -> (exists x, entry v x) ->
    exists urls warnings,
      get_urls_from_sitemap (S n) u = Ret (urls, warnings)
      /\ {| warned_url := v; warned_exn := RecursionError |} ∈ warnings.
Proof.
  induction n as [|n IH]; intros u v Hc Hv; cbn [chain] in Hc.
  - subst v. destruct Hv as (x & soup & Hread & Hx).
    assert (Hne : find_all (is_named "sitemap") soup <> [])
      by (intros E; rewrite E in Hx; inversion Hx).
    cbn [get_urls_from_sitemap].
    rewrite (sitemap_body_index _ _ soup Hread Hne).
    rewrite (index_loop_raise _ RecursionError)
      by (try reflexivity; intros E; rewrite E in Hx; inversion Hx).
    eexists _, _. split; [reflexivity|]. apply elem_of_app. right.
    apply elem_of_cons. now left.
  - destruct Hc as (w & (soup & Hread & Hw) & Hc).
    destruct (IH w v Hc Hv) as (urls1 & ws1 & Hget & Hin).
    assert (Hne : find_all (is_named "sitemap") soup <> [])
      by (intros E; rewrite E in Hw; inversion Hw).
    change (get_urls_from_sitemap (S (S n)) u)
      with (Ret (sitemap_body (get_urls_from_sitemap (S n)) u)).
    rewrite (sitemap_body_index _ _ soup Hread Hne).
    destruct (index_loop (get_urls_from_sitemap (S n)) u
                (find_all (is_named "sitemap") soup) ∅ [])
      as [urls warnings] eqn:E.
    exists urls, warnings. split; [reflexivity|].
    apply index_loop_keeps in E as (_ & Hnew); [|intros l; cbn; eauto].
    eapply Hnew; eauto.
Qed.

Lemma reaches_self_step u v :
  self_referential u -> rtc entry v u ->
  exists x, entry v x /\ rtc entry x u.
Proof.
  intros Hu Hv. inversion Hv as [|? y ? Hy Hrest]; subst.
  - inversion Hu as [? ? Hy|? y ? Hy Hrest]; subst.
    + exists u. split; [exact Hy | apply rtc_refl].
    + exists y. split; [exact Hy | now apply tc_rtc].
  - exists y. auto.
Qed.

Lemma self_referential_chain u :
  self_referential u ->
  forall n v, rtc entry v u ->
    exists w, chain n v w /\ rtc entry w u.
Proof.
  intros Hu. induction n as [|n IH]; intros v Hv.
  - exists v. split; [reflexivity | exact Hv].
  - destruct (reaches_self_step u v Hu Hv) as (x & Hx & Hxu).
    destruct (IH x Hxu) as (w & Hc & Hw). exists w.
    split; [exists x; auto | exact Hw].
Qed.

End Sitemap.

Example sitemap_flattening :
  @get_urls_from_sitemap sitemap_web 2 "https://example.com/sitemap.xml"
  = Ret ({[ "https://example.com/"; "https://example.com/a1";
            "https://example.com/a2"; "https://example.com/b1";
            "https://example.com/b2" ]},
         [ {| warned_url := "https://example.com/sitemap-c.xml";
              warned_exn := HTTPError 404 |} ]).
Proof. vm_compute. reflexivity. Qed.

(** A sitemap index that names itself: every call nests one deeper, the
    last one allowed meets the limit at its first entry, and each call
    returns the empty set. *)
Example sitemap_self_reference :
  @get_urls_from_sitemap self_web 6 "https://example.com/sitemap.xml"
  = Ret (∅, [ {| warned_url := "https://example.com/sitemap.xml";
                 warned_exn := RecursionError |} ]).
Proof. vm_compute. reflexivity. Qed.

(** Two indexes that name each other: the flat sitemaps named by the first
    one are read where the limit allows it, before and after the entry
    that leads into the ring. *)
Example sitemap_ring :
  @get_urls_from_sitemap ring_web 3 "https://example.com/ring-1.xml"
  = Ret ({[ "https://example.com/"; "https://example.com/a1";
            "https://example.com/a2"; "https://example.com/b1";
            "https://example.com/b2" ]},
         [ {| warned_url := "https://example.com/ring-1.xml";
              warned_exn := RecursionError |} ]).
Proof. vm_compute. reflexivity. Qed.

Lemma sitemap_web_tree_ok :
  @sitemap_tree sitemap_web "https://example.com/sitemap.xml" sitemap_web_tree.
Proof.
  unfold sitemap_web_tree.
  apply (@tree_index sitemap_web _ doc_index);
    [reflexivity | discriminate |].
  repeat constructor.
Qed.

Lemma self_web_self_referential :
  @self_referential self_web "https://example.com/sitemap.xml".
Proof.
  apply tc_once. exists doc_self. split; [reflexivity|].
  apply elem_of_cons. now left.
Qed.

(** C6. A sitemap that cannot be fetched or parsed gives the empty set and
    one warning that names it. When the sitemaps reachable from a URL form a
    tree, the resolver, allowed to nest deeper than the tree, returns the
    union of the page URLs of the sitemaps that could be read, as a set,
    and one warning for each sitemap that could not, in the order of the
    visit: a failure below an index stops neither its siblings nor the
    index. *)
Theorem sitemap_failures_are_warnings `{Web} (url : str) (t : smtree)
    (limit : nat) :
  sitemap_tree url t ->
  (tree_depth t < limit)%nat ->
  get_urls_from_sitemap limit url = Ret (tree_pages t, tree_warnings t)
  /\ (forall e, read_sitemap url = Raise e ->
        get_urls_from_sitemap limit url
        = Ret (∅, [ {| warned_url := url; warned_exn := e |} ])).
Proof.
  intros Ht Hlimit. split.
  - now apply get_urls_of_tree.
  - intros e He. destruct limit as [|limit]; [lia|].
    cbn [get_urls_from_sitemap]. f_equal. now apply sitemap_body_failed.
Qed.

Lemma sitemap_failures_are_warnings_witness :
  @sitemap_tree sitemap_web "https://example.com/sitemap.xml" sitemap_web_tree
  /\ (tree_depth sitemap_web_tree < 2)%nat
  /\ @get_urls_from_sitemap sitemap_web 2 "https://example.com/sitemap.xml"
     = Ret (tree_pages sitemap_web_tree, tree_warnings sitemap_web_tree)
  /\ (forall e,
        @read_sitemap sitemap_web "https://example.com/sitemap.xml" = Raise e ->
        @get_urls_from_sitemap sitemap_web 2 "https://example.com/sitemap.xml"
        = Ret (∅, [ {| warned_url := "https://example.com/sitemap.xml";
                       warned_exn := e |} ])).
Proof.
  split; [exact sitemap_web_tree_ok|]. split; [cbn; lia|].
  apply (@sitemap_failures_are_warnings sitemap_web
           "https://example.com/sitemap.xml" sitemap_web_tree 2).
  - exact sitemap_web_tree_ok.
  - cbn. lia.
Defined.

(** C2. The recursion of the resolver is bounded, by the limit of the
    interpreter: a call that may nest [limit + 1] deep returns, whatever the
    sitemaps are. On a sitemap whose index entries reference it, directly
    or through other indexes, it returns by meeting the limit: an index
    reached from the sitemap shows a warning that carries the
    [RecursionError]. *)
Theorem sitemap_recursion_is_capped `{Web} (limit : nat) (url : str) :
  self_referential url ->
  exists urls warnings,
    get_urls_from_sitemap (S limit) url = Ret (urls, warnings)
    /\ exists w, w ∈ warnings
                 /\ warned_exn w = RecursionError
                 /\ rtc entry url (warned_url w).
Proof.
  intros Hu.
  destruct (self_referential_chain url Hu limit url (rtc_refl _ _))
    as (v & Hc & Hv).
  destruct (reaches_self_step url v Hu Hv) as (x & Hx & _).
  destruct (chain_meets_limit limit url v Hc (ex_intro _ x Hx))
    as (urls & warnings & Hget & Hin).
  exists urls, warnings. split; [exact Hget|].
  exists {| warned_url := v; warned_exn := RecursionError |}.
  split; [exact Hin|]. split; [reflexivity|]. cbn. eapply chain_rtc; eauto.
Qed.

Lemma sitemap_recursion_is_capped_witness :
  @self_referential self_web "https://example.com/sitemap.xml"
  /\ exists urls warnings,
       @get_urls_from_sitemap self_web 6 "https://example.com/sitemap.xml"
       = Ret (urls, warnings)
       /\ exists w, w ∈ warnings
                    /\ warned_exn w = RecursionError
                    /\ rtc (@entry self_web) "https://example.com/sitemap.xml"
                         (warned_url w).
Proof.
  split; [exact self_web_self_referential|].
  apply (@sitemap_recursion_is_capped self_web 5
           "https://example.com/sitemap.xml").
  exact self_web_self_referential.
Defined.

(** ** Crawler *)

Section Crawler.

Context `{Py.Unicode} `{Web}.

Lemma enqueue_links_spec current root_domain seen anchors :
  forall to_visit trace to_visit' trace',
    enqueue_links current root_domain seen anchors to_visit trace
      = Ret (to_visit', trace') ->
    exists new,
      to_visit' = to_visit ++ new
      /\ trace' = trace ++ map EvAppend new
      /\ Forall (fun u => (u ∉ seen) /\ should_skip_url u = false) new.
Proof.
  induction anchors as [|a anchors IH]; intros tv tr tv' tr' E;
    cbn [enqueue_links] in E.
  - inversion E; subst. exists []. cbn. now rewrite !app_nil_r.
  - destruct (Py.startswith _ _); [now apply IH|].
    destruct (urljoin current _) as [absolute|e]; [|discriminate].
    destruct (negb (is_internal_url absolute root_domain)); [now apply IH|].
    destruct (bool_decide (url_defrag absolute ∉ seen)) eqn:Hs;
      [destruct (should_skip_url (url_defrag absolute)) eqn:Hk|];
      cbn [andb negb] in E; try now apply IH.
    apply IH in E as (new & -> & -> & Hnew).
    exists (url_defrag absolute :: new). cbn [map].
    rewrite <- !app_assoc. repeat split; try reflexivity.
    constructor; [|exact Hnew]. split; [|exact Hk].
    now apply bool_decide_eq_true in Hs.
Qed.

Lemma falsy_or_body html :
  falsy html = false -> exists body, html = Some body /\ body <> [].
Proof.
  destruct html as [body|]; [|discriminate]. cbn [falsy]. intros E.
  exists body. split; [reflexivity|]. now apply eqb_neq.
Qed.

Lemma crawl_iteration_cases root_domain delay current rest st st' :
  crawl_iteration root_domain delay current rest st = Ret st' ->
  (current ∈ seen st
   /\ st' = {| to_visit := rest; seen := seen st; all_urls := all_urls st;
               trace := trace st ++ [EvPop current] |})
  \/ ((current ∉ seen st) /\ should_skip_url current = true
      /\ st' = {| to_visit := rest; seen := seen st ∪ {[ current ]};
                  all_urls := all_urls st;
                  trace := trace st ++ [EvPop current; EvSeen current] |})
  \/ ((current ∉ seen st) /\ should_skip_url current = false
      /\ (exists html, fetch_html current = Ret html /\ falsy html = true)
      /\ st' = {| to_visit := rest; seen := seen st ∪ {[ current ]};
                  all_urls := all_urls st;
                  trace := trace st
                    ++ [EvPop current; EvSeen current; EvFetch current] |})
  \/ ((current ∉ seen st) /\ should_skip_url current = false
      /\ fetched current
      /\ exists new,
           Forall (fun u => (u ∉ seen st ∪ {[ current ]})
                            /\ should_skip_url u = false) new
           /\ st' = {| to_visit := rest ++ new;
                       seen := seen st ∪ {[ current ]};
                       all_urls := all_urls st ∪ {[ current ]};
                       trace := trace st
                         ++ [EvPop current; EvSeen current; EvFetch current]
                         ++ map EvAppend new ++ [EvSleep delay] |}).
Proof.
  unfold crawl_iteration. intros E.
  destruct (bool_decide (current ∈ seen st)) eqn:Hin.
  { apply bool_decide_eq_true in Hin. left. inversion E; subst. auto. }
  apply bool_decide_eq_false in Hin. right.
  destruct (should_skip_url current) eqn:Hskip.
  { left. inversion E; subst. rewrite <- !app_assoc. auto. }
  right. destruct (fetch_html current) as [html|e] eqn:Hf; [|discriminate].
  destruct (falsy html) eqn:Hfalsy.
  { left. inversion E; subst. rewrite <- !app_assoc. eauto 6. }
  right. apply falsy_or_body in Hfalsy as (body & -> & Hbody).
  destruct (enqueue_links _ _ _ _ _ _) as [[tv tr]|e] eqn:Hq; [|discriminate].
  apply enqueue_links_spec in Hq as (new & -> & -> & Hnew).
  destruct (time_sleep delay) as [[]|e]; [|discriminate].
  inversion E; subst. repeat split; try assumption.
  - exists body. auto.
  - exists new. split; [exact Hnew|]. rewrite <- !app_assoc. reflexivity.
Qed.






Lemma replay_app tr evs :
  replay (tr ++ evs) = foldl replay_step (replay tr) evs.
Proof. unfold replay. apply foldl_app. Qed.

Lemma replay_appends (s f : gset str) (new : list str) :
  Forall (fun u => u ∉ s) new ->
  foldl replay_step (Some (s, f)) (map EvAppend new) = Some (s, f).
Proof.
  induction 1 as [|u new Hu _ IH]; [reflexivity|].
  cbn [map foldl replay_step]. now rewrite bool_decide_eq_false_2.
Qed.

Lemma crawl_iteration_trace_inv root_domain delay current rest st st' :
  trace_inv st ->
  crawl_iteration root_domain delay current rest st = Ret st' ->
  trace_inv st'.
Proof.
  intros (f & Hr & Hf) E. apply crawl_iteration_cases in E
    as [(_ & ->)|[(Hn & _ & ->)|[(Hn & _ & _ & ->)|(Hn & _ & _ & new & Hnew & ->)]]];
    unfold trace_inv; cbn [trace seen]; rewrite replay_app, Hr.
  - exists f. auto.
  - exists f. split; [reflexivity | set_solver].
  - exists (f ∪ {[ current ]}). cbn [foldl replay_step].
    rewrite bool_decide_eq_false_2 by set_solver. split; [reflexivity | set_solver].
  - exists (f ∪ {[ current ]}). rewrite foldl_app. cbn [foldl replay_step].
    rewrite bool_decide_eq_false_2 by set_solver.
    rewrite foldl_app, replay_appends.
    + split; [reflexivity | set_solver].
    + eapply Forall_impl; [exact Hnew|]. now intros u [Hu _].
Qed.

Lemma crawl_loop_trace_inv fuel root_domain max_pages delay :
  forall st st',
    trace_inv st ->
    crawl_loop fuel root_domain max_pages delay st = Some (Ret st') ->
    trace_inv st'.
Proof.
  induction fuel as [|fuel IH]; intros st st' Hinv; cbn [crawl_loop];
    destruct (to_visit st) as [|current rest];
    try (intros E; inversion E; subst; exact Hinv);
    destruct (Z.of_nat (size (seen st)) <? max_pages);
    try (intros E; inversion E; subst; exact Hinv); try discriminate.
  destruct (crawl_iteration root_domain delay current rest st) as [st1|e]
    eqn:Hit; [|discriminate].
  apply IH. eapply crawl_iteration_trace_inv; eauto.
Qed.

End Crawler.

(** A run on a site with a cycle. *)
Example crawl_site_runs :
  @crawl_site latin crawl_web 5 "https://example.com/" 10 0.5%float
  = Some (Ret {[ "https://example.com/"; "https://example.com/a" ]}).
Proof. vm_compute. reflexivity. Qed.

(** With a budget of one page only the start page is visited. *)
Example crawl_site_budget_one :
  @crawl_site latin crawl_web 5 "https://example.com/" 1 0.5%float
  = Some (Ret {[ "https://example.com/" ]}).
Proof. vm_compute. reflexivity. Qed.

(** With a budget of two pages the crawl stops after the second. *)
Example crawl_site_budget_two :
  @crawl_site latin crawl_web 5 "https://example.com/" 2 0.5%float
  = Some (Ret {[ "https://example.com/"; "https://example.com/a" ]}).
Proof. vm_compute. reflexivity. Qed.






(** Whatever the web, no address is requested twice in one run, and no
    address is appended to the frontier after it was added to [seen]:
    addresses here are compared as strings, as [seen] compares them. *)
Lemma crawl_trace_has_no_repeat `{Py.Unicode} `{Web} (fuel : nat)
    (start_url : str) (max_pages : Z) (delay : float) (st : crawl_state) :
  crawl_run fuel start_url max_pages delay = Some (Ret st) ->
  exists f, replay (trace st) = Some (seen st, f) /\ f ⊆ seen st.
Proof.
  unfold crawl_run. destruct (urlparse_netloc start_url) as [root_domain|e];
    [|discriminate].
  apply crawl_loop_trace_inv. exists ∅. split; [reflexivity | set_solver].
Qed.

(** C7 at a start URL that carries a fragment: the start URL goes into
    [seen] as it is, the link back to the page is normalized to the address
    without the fragment, which is not in [seen], and the page is queued
    and fetched a second time; both addresses are returned. *)
Lemma crawl_fragment_start_fetched_twice :
  exists fuel st,
    @crawl_run latin frag_web fuel "https://example.com/#top" 10 0.5%float
    = Some (Ret st)
    /\ trace st
       = [ EvPop "https://example.com/#top"; EvSeen "https://example.com/#top";
           EvFetch "https://example.com/#top";
           EvAppend "https://example.com/"; EvSleep 0.5%float;
           EvPop "https://example.com/"; EvSeen "https://example.com/";
           EvFetch "https://example.com/"; EvSleep 0.5%float ]
    /\ all_urls st = {[ "https://example.com/#top"; "https://example.com/" ]}
    /\ @url_defrag frag_web "https://example.com/#top"
       = @url_defrag frag_web "https://example.com/".
Proof.
  eexists 5%nat, _. split; [vm_compute; reflexivity|].
  repeat split; vm_compute; reflexivity.
Qed.

